(** * Admission checks of job policies and volumes

    A shallow embedding of [pkg/webhooks/admission/jobs/validate/util.go]
    (package [validate]): the allow-list tables, [validatePolicies],
    [getEventList], [removeDuplicates] and [validateIO], followed by the
    properties of these functions.

    Go maps are finite maps ([gmap]) or finite sets ([gset], for the maps
    whose values are [struct{}]); slices are lists; a pointer that is only
    compared with [nil] and dereferenced is an [option]; a loop that can
    [break] is a recursive function over the ranged slice that threads the
    local variables and reports how the loop ended. *)

From Stdlib Require Import ZArith Lia.
From stdpp Require Import base option list gmap sets strings pretty.

#[local] Set Warnings "-clear-no-such-hyp".

Local Open Scope string_scope.
Local Open Scope list_scope.
Local Open Scope Z_scope.

(** ** Types of the API package [batchv1alpha1]

    [Event] and [Action] are Go string types.  The values of the named
    constants are declared in [pkg/apis/batch/v1alpha1], outside the file
    modelled here, so the development is parametric in them. *)

Module batchv1alpha1.

Abbreviation Event := string.
Abbreviation Action := string.

Class Constants := {
  AnyEvent : Event;
  PodFailedEvent : Event;
  PodEvictedEvent : Event;
  JobUnknownEvent : Event;
  TaskCompletedEvent : Event;
  OutOfSyncEvent : Event;
  CommandIssuedEvent : Event;
  AbortJobAction : Action;
  RestartJobAction : Action;
  RestartTaskAction : Action;
  TerminateJobAction : Action;
  CompleteJobAction : Action;
  ResumeJobAction : Action;
  SyncJobAction : Action;
  EnqueueAction : Action
}.

End batchv1alpha1.

Abbreviation int32 := Z.

(** [LifecyclePolicy]: the fields read by the validators.  [ExitCode] is
    a [*int32]; no arithmetic is done on it, only comparison with [0] and
    use as a map key. *)
Record LifecyclePolicy := {
  Action : batchv1alpha1.Action;
  Event : batchv1alpha1.Event;
  Events : list batchv1alpha1.Event;
  ExitCode : option int32
}.

(** [VolumeSpec]: [VolumeClaim] is a pointer to a claim template whose
    contents are never inspected here. *)
Record VolumeSpec {PersistentVolumeClaimSpec : Type} := {
  MountPath : string;
  VolumeClaimName : string;
  VolumeClaim : option PersistentVolumeClaimSpec
}.
Arguments VolumeSpec : clear implicits.

(** ** Errors *)

(** The two kinds of error values built in this file: [fmt.Errorf] with
    its formatted message, and [field.Invalid], which stores the rendered
    path, the offending value and the detail text. *)
Inductive error :=
  | fmt_Errorf (msg : string)
  | field_Invalid (fldPath : string) (value : string) (detail : string).

#[global] Instance error_eq_dec : EqDecision error.
Proof. solve_decision. Defined.

(** A go-multierror [*Error] is the list of the errors it wraps; the
    [error] variable of [validatePolicies] is [nil] ([None]) or such a
    value. *)
Abbreviation multierror := (list error).

(** [multierror.Append err e] at its call sites: [err] is [nil] or a
    [*multierror.Error], and [e] is a plain non-nil error. *)
Definition multierror_Append (err : option multierror) (e : error) : option multierror :=
  match err with
  | None => Some [e]
  | Some errs => Some (errs ++ [e])
  end.

(** [contains needle s]: [needle] occurs in [s]. *)
Definition contains (needle s : string) : bool :=
  match String.index 0 needle s with
  | Some _ => true
  | None => false
  end.

(** The text of an error, up to the rendering of the path and value of a
    [field.Invalid], of which only the detail is looked at. *)
Definition mentions (needle : string) (e : error) : bool :=
  match e with
  | fmt_Errorf msg => contains needle msg
  | field_Invalid _ _ detail => contains needle detail
  end.

(** ** Partiality and loop control *)

(** A computation either returns or panics (nil pointer dereference). *)
Inductive result (A : Type) :=
  | Ok (a : A)
  | Panic.
Arguments Ok {A} a.
Arguments Panic {A}.

#[global] Instance result_bind : MBind result := λ A B k r,
  match r with
  | Ok a => k a
  | Panic => Panic
  end.

(** [*p] *)
Definition deref {A : Type} (p : option A) : result A :=
  match p with
  | Some a => Ok a
  | None => Panic
  end.

(** How one pass through a loop body ends. *)
Inductive flow :=
  | Next
  | Break.

(** ** Event list merge *)

(** The [for ... range EventList] loop of [removeDuplicates], threading
    [keys] and the result slice [lst] ([list] in the source). *)
Fixpoint removeDuplicates_range (EventList : list batchv1alpha1.Event)
    (keys : gmap batchv1alpha1.Event bool) (lst : list batchv1alpha1.Event)
    : list batchv1alpha1.Event :=
  match EventList with
  | [] => lst
  | val :: rest =>
      match keys !! val with
      | None => removeDuplicates_range rest (<[val := true]> keys) (lst ++ [val])
      | Some _ => removeDuplicates_range rest keys lst
      end
  end.

Definition removeDuplicates (EventList : list batchv1alpha1.Event) : list batchv1alpha1.Event :=
  removeDuplicates_range EventList ∅ [].

(** [len(s) > 0], [len(s) != 0], [s != ""] *)
Definition nonempty (s : string) : bool :=
  match s with
  | EmptyString => false
  | String _ _ => true
  end.

Definition getEventList (policy : LifecyclePolicy) : list batchv1alpha1.Event :=
  let policyEventsList := Events policy in
  let policyEventsList :=
    if nonempty (Event policy) then policyEventsList ++ [Event policy]
    else policyEventsList in
  removeDuplicates policyEventsList.

(** The merge as the specification words it: the entries of the list
    field, then the single field when it is set. *)
Definition citedEvents (policy : LifecyclePolicy) : list batchv1alpha1.Event :=
  Events policy ++ (if decide (Event policy = "") then [] else [Event policy]).

(** Removal of duplicates as the specification words it: every entry is
    kept at its first occurrence and dropped afterwards. *)
Fixpoint keepFirst (l : list batchv1alpha1.Event) : list batchv1alpha1.Event :=
  match l with
  | [] => []
  | x :: rest => x :: filter (λ y, y ≠ x) (keepFirst rest)
  end.

(** ** Formatting *)

(** [%v] of an [int32] is its decimal notation, of a [[]string] the
    entries separated by blanks between square brackets. *)
Definition fmt_int32 (n : int32) : string := pretty n.

Fixpoint fmt_join (l : list string) : string :=
  match l with
  | [] => ""
  | [s] => s
  | s :: rest => s +:+ " " +:+ fmt_join rest
  end.

Definition fmt_strings (l : list string) : string := "[" +:+ fmt_join l +:+ "]".

(** ** Local variables of [validatePolicies] *)

Record locals := {
  err : option multierror;
  policyEvents : gset batchv1alpha1.Event;
  exitCodes : gset int32
}.

(** [err = multierror.Append(err, e)] *)
Definition appendErr (e : error) (s : locals) : locals :=
  {| err := multierror_Append (err s) e;
     policyEvents := policyEvents s;
     exitCodes := exitCodes s |}.

(** [policyEvents[event] = struct{}{}] *)
Definition recordEvent (event : batchv1alpha1.Event) (s : locals) : locals :=
  {| err := err s;
     policyEvents := {[event]} ∪ policyEvents s;
     exitCodes := exitCodes s |}.

(** [exitCodes[code] = struct{}{}] *)
Definition recordExitCode (code : int32) (s : locals) : locals :=
  {| err := err s;
     policyEvents := policyEvents s;
     exitCodes := {[code]} ∪ exitCodes s |}.

(** The locals at the entry of the loop over the policies. *)
Definition entry : locals :=
  {| err := None; policyEvents := ∅; exitCodes := ∅ |}.

(** [v, ok := m[k]] on a map of booleans: a missing key reads as the
    zero value [false]. *)
Definition commaOk (m : gmap string bool) (k : string) : bool * bool :=
  match m !! k with
  | Some v => (v, true)
  | None => (false, false)
  end.

(** [_, found := m[k]] on a set. *)
Definition found {A : Type} `{Countable A} (m : gset A) (k : A) : bool :=
  bool_decide (k ∈ m).

Definition isNil {A : Type} (p : option A) : bool :=
  match p with
  | Some _ => false
  | None => true
  end.

(** [len(l) == 0] *)
Definition lenZero {A : Type} (l : list A) : bool :=
  match l with
  | [] => true
  | _ :: _ => false
  end.

(** The three conditions tested on a policy, in the order of the source:
    [(policy.Event != "" || len(policy.Events) != 0) && policy.ExitCode != nil],
    [policy.Event == "" && len(policy.Events) == 0 && policy.ExitCode == nil]
    and [len(policy.Event) != 0 || len(policy.Events) != 0]. *)
Definition bothSet (policy : LifecyclePolicy) : bool :=
  (nonempty (Event policy) || negb (lenZero (Events policy)))
  && negb (isNil (ExitCode policy)).

Definition neitherSet (policy : LifecyclePolicy) : bool :=
  negb (nonempty (Event policy)) && lenZero (Events policy) && isNil (ExitCode policy).

Definition eventSet (policy : LifecyclePolicy) : bool :=
  nonempty (Event policy) || negb (lenZero (Events policy)).

Section policies.

Context `{K : batchv1alpha1.Constants}.

(** [policyEventMap] defines all policy events and whether to allow
    external use. *)
Definition policyEventMap : gmap batchv1alpha1.Event bool :=
  list_to_map [
    (batchv1alpha1.AnyEvent, true);
    (batchv1alpha1.PodFailedEvent, true);
    (batchv1alpha1.PodEvictedEvent, true);
    (batchv1alpha1.JobUnknownEvent, true);
    (batchv1alpha1.TaskCompletedEvent, true);
    (batchv1alpha1.OutOfSyncEvent, false);
    (batchv1alpha1.CommandIssuedEvent, false)
  ].

(** [policyActionMap] defines all policy actions and whether to allow
    external use. *)
Definition policyActionMap : gmap batchv1alpha1.Action bool :=
  list_to_map [
    (batchv1alpha1.AbortJobAction, true);
    (batchv1alpha1.RestartJobAction, true);
    (batchv1alpha1.RestartTaskAction, true);
    (batchv1alpha1.TerminateJobAction, true);
    (batchv1alpha1.CompleteJobAction, true);
    (batchv1alpha1.ResumeJobAction, true);
    (batchv1alpha1.SyncJobAction, false);
    (batchv1alpha1.EnqueueAction, false)
  ].

(** The loop over [policyEventsList]; the boolean returned is [bFlag]. *)
Fixpoint rangeEvents (fldPath : string) (policy : LifecyclePolicy)
    (policyEventsList : list batchv1alpha1.Event) (s : locals) : locals * bool :=
  match policyEventsList with
  | [] => (s, false)
  | event :: rest =>
      let '(allow, ok) := commaOk policyEventMap event in
      if negb ok || negb allow then
        (appendErr (field_Invalid fldPath event "invalid policy event") s, true)
      else
        let '(allow, ok) := commaOk policyActionMap (Action policy) in
        if negb ok || negb allow then
          (appendErr (field_Invalid fldPath (Action policy) "invalid policy action") s, true)
        else if found (policyEvents s) event then
          (appendErr (fmt_Errorf ("duplicate event " +:+ event +:+ "  across different policy")) s,
           true)
        else rangeEvents fldPath policy rest (recordEvent event s)
  end.

(** The branch for a policy with an event specification. *)
Definition eventBranch (fldPath : string) (policy : LifecyclePolicy) (s : locals)
    : result (locals * flow) :=
  let policyEventsList := getEventList policy in
  let '(s', bFlag) := rangeEvents fldPath policy policyEventsList s in
  if bFlag then Ok (s', Break) else Ok (s', Next).

(** The [else] branch, which reads [*policy.ExitCode]. *)
Definition exitCodeBranch (policy : LifecyclePolicy) (s : locals) : result (locals * flow) :=
  code ← deref (ExitCode policy);
  if code =? 0 then
    Ok (appendErr (fmt_Errorf "0 is not a valid error code") s, Break)
  else if found (exitCodes s) code then
    Ok (appendErr (fmt_Errorf ("duplicate exitCode " +:+ fmt_int32 code)) s, Break)
  else Ok (recordExitCode code s, Next).

(** One pass through the body of the loop over [policies]. *)
Definition policyBody (fldPath : string) (policy : LifecyclePolicy) (s : locals)
    : result (locals * flow) :=
  if bothSet policy then
    Ok (appendErr (fmt_Errorf "must not specify event and exitCode simultaneously") s, Break)
  else if neitherSet policy then
    Ok (appendErr (fmt_Errorf "either event and exitCode should be specified") s, Break)
  else if eventSet policy then eventBranch fldPath policy s
  else exitCodeBranch policy s.

(** The loop over [policies]; the [flow] returned tells whether it ran
    to the end of the slice or was left by a [break]. *)
Fixpoint rangePolicies (fldPath : string) (policies : list LifecyclePolicy) (s : locals)
    : result (locals * flow) :=
  match policies with
  | [] => Ok (s, Next)
  | policy :: rest =>
      r ← policyBody fldPath policy s;
      match r with
      | (s', Break) => Ok (s', Break)
      | (s', Next) => rangePolicies fldPath rest s'
      end
  end.

(** The check after the loop. *)
Definition wildcardCheck (s : locals) : option multierror :=
  if found (policyEvents s) batchv1alpha1.AnyEvent && bool_decide (1 < size (policyEvents s))%nat then
    multierror_Append (err s)
      (fmt_Errorf "if there's * here, no other policy should be here")
  else err s.

Definition validatePolicies (policies : list LifecyclePolicy) (fldPath : string)
    : result (option multierror) :=
  r ← rangePolicies fldPath policies entry;
  Ok (wildcardCheck r.1).

End policies.

(** ** The enumerators of the allow-lists *)

(** [getValidEvents] and [getValidActions] range over a map.  Go visits
    every entry of a map once, in an order that it leaves unspecified, so
    the order of the visit is an argument here: [order] lists the entries
    as the loop meets them, and [visits m order] says that it is such a
    visit of [m]. *)
Definition visits (m : gmap string bool) (order : list (string * bool)) : Prop :=
  order ≡ₚ map_to_list m.

(** The loop of [getValidEvents], threading [events]. *)
Fixpoint getValidEvents_range (order : list (batchv1alpha1.Event * bool))
    (events : list batchv1alpha1.Event) : list batchv1alpha1.Event :=
  match order with
  | [] => events
  | (e, allow) :: rest =>
      if allow then getValidEvents_range rest (events ++ [e])
      else getValidEvents_range rest events
  end.

Definition getValidEvents (order : list (batchv1alpha1.Event * bool))
    : list batchv1alpha1.Event :=
  getValidEvents_range order [].

(** The loop of [getValidActions], threading [actions]. *)
Fixpoint getValidActions_range (order : list (batchv1alpha1.Action * bool))
    (actions : list batchv1alpha1.Action) : list batchv1alpha1.Action :=
  match order with
  | [] => actions
  | (a, allow) :: rest =>
      if allow then getValidActions_range rest (actions ++ [a])
      else getValidActions_range rest actions
  end.

Definition getValidActions (order : list (batchv1alpha1.Action * bool))
    : list batchv1alpha1.Action :=
  getValidActions_range order [].

(** ** Volumes *)

Section volumes.

Context {PersistentVolumeClaimSpec : Type}.

(** [validation.ValidatePersistentVolumeName] of the Kubernetes core
    validation package: the list of the complaints about a name. *)
Variable validation_ValidatePersistentVolumeName : string → bool → list string.

(** The loop of [validateIO], threading [volumeMap]; a [return] inside
    the loop ends the function. *)
Fixpoint validateIO_range (volumes : list (VolumeSpec PersistentVolumeClaimSpec))
    (volumeMap : gmap string bool) : option error :=
  match volumes with
  | [] => None
  | volume :: rest =>
      let next := validateIO_range rest (<[MountPath volume := true]> volumeMap) in
      if negb (nonempty (MountPath volume)) then
        Some (fmt_Errorf " mountPath is required;")
      else if (commaOk volumeMap (MountPath volume)).2 then
        Some (fmt_Errorf (" duplicated mountPath: " +:+ MountPath volume +:+ ";"))
      else if isNil (VolumeClaim volume) && negb (nonempty (VolumeClaimName volume)) then
        Some (fmt_Errorf " either VolumeClaim or VolumeClaimName must be specified;")
      else if nonempty (VolumeClaimName volume) then
        if negb (isNil (VolumeClaim volume)) then
          Some (fmt_Errorf
            ("confilct: If you want to use an existing PVC, just specify VolumeClaimName." +:+
             "If you want to create a new PVC, you do not need to specify VolumeClaimName"))
        else
          let errMsgs :=
            validation_ValidatePersistentVolumeName (VolumeClaimName volume) false in
          if negb (lenZero errMsgs) then
            Some (fmt_Errorf ("invalid VolumeClaimName " +:+ VolumeClaimName volume +:+
                              " : " +:+ fmt_strings errMsgs))
          else next
      else next
  end.

(** [validateIO] validates IO configuration. *)
Definition validateIO (volumes : list (VolumeSpec PersistentVolumeClaimSpec)) : option error :=
  validateIO_range volumes ∅.

End volumes.

(** ** A concrete set of constants *)

(** Modelled from the spec: the values of the event and action constants
    of [batchv1alpha1], which are declared outside the file modelled
    here; the names are those of the specification's data model. *)
Definition specConstants : batchv1alpha1.Constants :=
  {| batchv1alpha1.AnyEvent := "Any";
     batchv1alpha1.PodFailedEvent := "PodFailed";
     batchv1alpha1.PodEvictedEvent := "PodEvicted";
     batchv1alpha1.JobUnknownEvent := "JobUnknown";
     batchv1alpha1.TaskCompletedEvent := "TaskCompleted";
     batchv1alpha1.OutOfSyncEvent := "OutOfSync";
     batchv1alpha1.CommandIssuedEvent := "CommandIssued";
     batchv1alpha1.AbortJobAction := "AbortJob";
     batchv1alpha1.RestartJobAction := "RestartJob";
     batchv1alpha1.RestartTaskAction := "RestartTask";
     batchv1alpha1.TerminateJobAction := "TerminateJob";
     batchv1alpha1.CompleteJobAction := "CompleteJob";
     batchv1alpha1.ResumeJobAction := "ResumeJob";
     batchv1alpha1.SyncJobAction := "SyncJob";
     batchv1alpha1.EnqueueAction := "Enqueue" |}.

(** ** Words of the specification *)

(** The constants are pairwise distinct, as map literals with constant
    keys require. *)
Definition distinctConstants (K : batchv1alpha1.Constants) : Prop :=
  NoDup [batchv1alpha1.AnyEvent; batchv1alpha1.PodFailedEvent;
         batchv1alpha1.PodEvictedEvent; batchv1alpha1.JobUnknownEvent;
         batchv1alpha1.TaskCompletedEvent; batchv1alpha1.OutOfSyncEvent;
         batchv1alpha1.CommandIssuedEvent] ∧
  NoDup [batchv1alpha1.AbortJobAction; batchv1alpha1.RestartJobAction;
         batchv1alpha1.RestartTaskAction; batchv1alpha1.TerminateJobAction;
         batchv1alpha1.CompleteJobAction; batchv1alpha1.ResumeJobAction;
         batchv1alpha1.SyncJobAction; batchv1alpha1.EnqueueAction].

(** [k] is a key of the allow-list [m] with flag true. *)
Definition allowed (m : gmap string bool) (k : string) : Prop := m !! k = Some true.

(** The policy has an event specification: a single event or a list. *)
Definition hasEventSpec (policy : LifecyclePolicy) : Prop :=
  Event policy ≠ "" ∨ Events policy ≠ [].

Definition hasExitCode (policy : LifecyclePolicy) : Prop := is_Some (ExitCode policy).

Definition exactlyOne (policy : LifecyclePolicy) : Prop :=
  (hasEventSpec policy ∧ ¬ hasExitCode policy) ∨ (¬ hasEventSpec policy ∧ hasExitCode policy).

(** No event is cited by two different policies of the list. *)
Definition noSharedEvent (policies : list LifecyclePolicy) : Prop :=
  ∀ i j p q e, i ≠ j → policies !! i = Some p → policies !! j = Some q →
    e ∈ citedEvents p → e ∉ citedEvents q.

(** The exit codes are non-zero and pairwise distinct across policies. *)
Definition exitCodesValid (policies : list LifecyclePolicy) : Prop :=
  (∀ p, p ∈ policies → ExitCode p ≠ Some 0) ∧
  (∀ i j p q c, i ≠ j → policies !! i = Some p → policies !! j = Some q →
     ExitCode p = Some c → ExitCode q ≠ Some c).

(** The event is cited by some policy of the list. *)
Definition cited (policies : list LifecyclePolicy) (e : batchv1alpha1.Event) : Prop :=
  ∃ p, p ∈ policies ∧ e ∈ citedEvents p.

(** The events cited by the policies, and their exit codes, as sets. *)
Definition citedSet (policies : list LifecyclePolicy) : gset batchv1alpha1.Event :=
  list_to_set (policies ≫= citedEvents).

Definition codeOf (policy : LifecyclePolicy) : gset int32 :=
  match ExitCode policy with
  | Some c => {[c]}
  | None => ∅
  end.

Definition codeSet (policies : list LifecyclePolicy) : gset int32 :=
  list_to_set (omap ExitCode policies).

(** The errors that an error value unwraps to; nil wraps none. *)
Definition unwrap (e : option multierror) : list error := default [] e.

Section wellFormed.

Context `{K : batchv1alpha1.Constants}.

Definition eventsAllowed (policy : LifecyclePolicy) : Prop :=
  ∀ e, e ∈ citedEvents policy → allowed policyEventMap e.

Definition actionAllowed (policy : LifecyclePolicy) : Prop :=
  allowed policyActionMap (Action policy).

(** The wildcard is not cited together with another event. *)
Definition wildcardAlone (policies : list LifecyclePolicy) : Prop :=
  ¬ (cited policies batchv1alpha1.AnyEvent ∧
     ∃ e, e ≠ batchv1alpha1.AnyEvent ∧ cited policies e).

(** A well-formed list of policies; [checked] tells of which policies
    the action has to be allowed. *)
Definition wellFormedUpTo (checked : LifecyclePolicy → Prop)
    (policies : list LifecyclePolicy) : Prop :=
  (∀ p, p ∈ policies →
     exactlyOne p ∧ eventsAllowed p ∧ (checked p → actionAllowed p)) ∧
  noSharedEvent policies ∧
  exitCodesValid policies ∧
  wildcardAlone policies.

(** Well-formed, with the action of every policy allowed. *)
Definition wellFormed (policies : list LifecyclePolicy) : Prop :=
  wellFormedUpTo (λ _, True) policies.

(** The policy passes the checks of the loop body when the events of
    [evs] and the exit codes of [codes] were seen before. *)
Definition admissible (evs : gset batchv1alpha1.Event) (codes : gset int32)
    (p : LifecyclePolicy) : Prop :=
  (hasEventSpec p ∧ ExitCode p = None ∧
   (∀ e, e ∈ citedEvents p → allowed policyEventMap e ∧ e ∉ evs) ∧
   actionAllowed p) ∨
  (¬ hasEventSpec p ∧ ∃ c, ExitCode p = Some c ∧ c ≠ 0 ∧ c ∉ codes).

(** The policies that pass the checks one after the other. *)
Fixpoint accepts (evs : gset batchv1alpha1.Event) (codes : gset int32)
    (policies : list LifecyclePolicy) : Prop :=
  match policies with
  | [] => True
  | p :: rest =>
      admissible evs codes p ∧
      accepts (list_to_set (citedEvents p) ∪ evs) (codeOf p ∪ codes) rest
  end.

End wellFormed.

Section volumeWords.

Context {PersistentVolumeClaimSpec : Type}.

Variable validation_ValidatePersistentVolumeName : string → bool → list string.

Implicit Types (volume : VolumeSpec PersistentVolumeClaimSpec)
  (volumes : list (VolumeSpec PersistentVolumeClaimSpec)).

(** Exactly one of the claim template and the claim name is set. *)
Definition exactlyOneClaim volume : Prop :=
  (is_Some (VolumeClaim volume) ∧ VolumeClaimName volume = "") ∨
  (VolumeClaim volume = None ∧ VolumeClaimName volume ≠ "").

(** A valid entry, when the mount paths of [seen] come before it. *)
Definition validVolume (seen : list string) volume : Prop :=
  MountPath volume ≠ "" ∧
  (MountPath volume ∉ seen) ∧
  exactlyOneClaim volume ∧
  (VolumeClaimName volume ≠ "" →
   validation_ValidatePersistentVolumeName (VolumeClaimName volume) false = []).

(** Every entry is valid after the entries before it. *)
Definition validVolumes volumes : Prop :=
  ∀ i volume, volumes !! i = Some volume →
    validVolume (MountPath <$> take i volumes) volume.

(** [volumeMap] once the mount paths of [volumes] are recorded. *)
Definition seenAfter volumes (volumeMap : gmap string bool) : gmap string bool :=
  foldl (λ m volume, <[MountPath volume := true]> m) volumeMap volumes.

End volumeWords.

(** The checks of an entry that do not depend on the entries before it. *)
Definition volumeOK {PersistentVolumeClaimSpec : Type}
    (validation_ValidatePersistentVolumeName : string → bool → list string)
    (volume : VolumeSpec PersistentVolumeClaimSpec) : Prop :=
  MountPath volume ≠ "" ∧
  exactlyOneClaim volume ∧
  (VolumeClaimName volume ≠ "" →
   validation_ValidatePersistentVolumeName (VolumeClaimName volume) false = []).

(** [needle] occurs in [s]. *)
Definition occursIn (needle s : string) : Prop :=
  ∃ before after, s = (before +:+ needle +:+ after)%string.

#[global] Instance allowed_dec m k : Decision (allowed m k).
Proof. unfold allowed. apply _. Defined.

#[global] Instance hasEventSpec_dec policy : Decision (hasEventSpec policy).
Proof. unfold hasEventSpec. apply _. Defined.

#[global] Instance actionAllowed_dec `{K : batchv1alpha1.Constants} policy :
  Decision (actionAllowed policy).
Proof. unfold actionAllowed. apply _. Defined.

(** The locals once the events of [l] are recorded, one after the other. *)
Definition recordEvents (l : list batchv1alpha1.Event) (s : locals) : locals :=
  foldl (λ s event, recordEvent event s) s l.

(** The locals once a policy that passes the checks is recorded. *)
Definition recordPolicy (policy : LifecyclePolicy) (s : locals) : locals :=
  match ExitCode policy with
  | Some code => recordExitCode code s
  | None => recordEvents (getEventList policy) s
  end.

(** * Properties *)

(** ** [removeDuplicates] and [getEventList] *)

Section merge.

Implicit Types (l : list string) (x y : string).

Lemma filter_all (P : string → Prop) `{!∀ x, Decision (P x)} l :
  (∀ x, x ∈ l → P x) → filter P l = l.
Proof.
  induction l as [|a l IH]; intros HP; [done|].
  rewrite filter_cons_True by (apply HP; left).
  f_equal. apply IH. intros x Hx. apply HP. by right.
Qed.

Lemma elem_of_keepFirst l x : x ∈ keepFirst l ↔ x ∈ l.
Proof.
  induction l as [|a l IH]; simpl; [done|].
  rewrite !elem_of_cons, list_elem_of_filter, IH.
  destruct (decide (x = a)); naive_solver.
Qed.

Lemma NoDup_keepFirst l : NoDup (keepFirst l).
Proof.
  induction l as [|a l IH]; simpl; [constructor|].
  constructor; [|by apply NoDup_filter].
  rewrite list_elem_of_filter. naive_solver.
Qed.

Lemma sublist_keepFirst l : sublist (keepFirst l) l.
Proof.
  induction l as [|a l IH]; simpl; [done|].
  apply sublist_skip. etrans; [apply sublist_filter|done].
Qed.

Lemma filter_keepFirst_app l1 l2 :
  keepFirst (l1 ++ l2) = keepFirst l1 ++ filter (λ y, y ∉ l1) (keepFirst l2).
Proof.
  induction l1 as [|a l1 IH]; simpl.
  - symmetry. apply filter_all. intros y _. apply not_elem_of_nil.
  - f_equal. rewrite IH, filter_app. f_equal.
    rewrite list_filter_filter. apply list_filter_iff.
    intros y. rewrite not_elem_of_cons. naive_solver.
Qed.

(** The loop keeps in [lst] what it has kept so far and appends the
    first occurrences of the entries that are not yet among [keys]. *)
Lemma removeDuplicates_range_spec l (keys : gmap string bool) (lst : list string) :
  (∀ x, is_Some (keys !! x) ↔ x ∈ lst) →
  removeDuplicates_range l keys lst = lst ++ filter (λ y, y ∉ lst) (keepFirst l).
Proof.
  revert keys lst. induction l as [|a l IH]; intros keys lst Hkeys; simpl.
  - by rewrite app_nil_r.
  - destruct (keys !! a) as [b|] eqn:Ha.
    + assert (a ∈ lst) as Hin by (apply Hkeys; eauto).
      rewrite IH by done. f_equal.
      rewrite filter_cons_False by (intros Hn; by apply Hn).
      rewrite list_filter_filter. apply list_filter_iff.
      intros y. split; [|naive_solver]. intros Hy. split; [done|congruence].
    + assert (a ∉ lst) as Hnin.
      { intros Hin. apply Hkeys in Hin. rewrite Ha in Hin. by destruct Hin. }
      rewrite IH.
      * rewrite filter_cons_True by done. rewrite <- app_assoc. simpl. do 2 f_equal.
        rewrite list_filter_filter. apply list_filter_iff.
        intros y. rewrite not_elem_of_app, list_elem_of_singleton. naive_solver.
      * intros x. rewrite elem_of_app, list_elem_of_singleton, lookup_insert_is_Some.
        rewrite Hkeys. destruct (decide (a = x)); naive_solver.
Qed.

Lemma removeDuplicates_keepFirst l : removeDuplicates l = keepFirst l.
Proof.
  unfold removeDuplicates. rewrite removeDuplicates_range_spec; simpl.
  - apply filter_all. intros y _. apply not_elem_of_nil.
  - intros x. rewrite lookup_empty, elem_of_nil. split; [by intros []|done].
Qed.

Lemma nonempty_spec (s : string) : nonempty s = bool_decide (s ≠ "").
Proof. by destruct s. Qed.

Lemma getEventList_merge policy : getEventList policy = keepFirst (citedEvents policy).
Proof.
  unfold getEventList, citedEvents. rewrite removeDuplicates_keepFirst, nonempty_spec.
  destruct (decide (Event policy = "")) as [->|Hne]; simpl.
  - by rewrite app_nil_r.
  - by rewrite bool_decide_true.
Qed.

(** Positions in a filtered list come from positions of the list, in
    the same order. *)
Lemma filter_lookup_order (P : string → Prop) `{!∀ x, Decision (P x)} l i j x y :
  filter P l !! i = Some x → filter P l !! j = Some y → (i < j)%nat →
  ∃ i' j', (i' < j')%nat ∧ l !! i' = Some x ∧ l !! j' = Some y.
Proof.
  revert i j. induction l as [|a l IH]; intros i j Hi Hj Hlt; [done|].
  rewrite filter_cons in Hi, Hj. destruct (decide (P a)).
  - destruct i as [|i]; destruct j as [|j]; try lia; simpl in *.
    + assert (y ∈ l) as Hy.
      { eapply list_elem_of_filter, list_elem_of_lookup_2, Hj. }
      apply list_elem_of_lookup in Hy as [j' Hj'].
      exists 0%nat, (S j'). split; [lia|]. by simplify_eq.
    + destruct (IH i j Hi Hj) as (i' & j' & ? & ? & ?); [lia|].
      exists (S i'), (S j'). split; [lia|done].
  - destruct (IH i j Hi Hj Hlt) as (i' & j' & ? & ? & ?).
    exists (S i'), (S j'). split; [lia|done].
Qed.

(** In [keepFirst l] an entry stands before another exactly as their
    first occurrences do in [l]: it occurs in [l] before every
    occurrence of the other. *)
Lemma keepFirst_order l i j x y :
  keepFirst l !! i = Some x → keepFirst l !! j = Some y → (i < j)%nat →
  ∃ i', l !! i' = Some x ∧ ∀ j', l !! j' = Some y → (i' < j')%nat.
Proof.
  revert i j. induction l as [|a l IH]; intros i j Hi Hj Hlt; [done|].
  simpl in Hi, Hj. destruct j as [|j]; [lia|]. simpl in Hj.
  assert (y ≠ a) as Hya.
  { apply list_elem_of_lookup_2, list_elem_of_filter in Hj. tauto. }
  destruct i as [|i]; simpl in Hi.
  - simplify_eq. exists 0%nat. split; [done|].
    intros [|j'] Hj'; [simpl in Hj'; congruence | lia].
  - destruct (filter_lookup_order _ _ _ _ _ _ Hi Hj) as (i2 & j2 & Hlt2 & Hi2 & Hj2); [lia|].
    destruct (IH _ _ Hi2 Hj2 Hlt2) as (i' & Hi' & Hfirst).
    exists (S i'). split; [done|].
    intros [|j'] Hj'; [simpl in Hj'; congruence|]. apply Hfirst in Hj'. lia.
Qed.

End merge.

(** C7: [getEventList] returns the entries of the [Events] field followed
    by the [Event] field when that one is not empty, with duplicates
    removed: the result is the merged list with every entry kept at its
    first occurrence, it has no duplicates, it has the entries of the
    merged list and no others, it is a sublist of the merged list, and two
    of its entries stand in the order of their first occurrences in the
    merged list.  For [Events = ["A"; "B"]] and [Event = "B"] the result is
    [["A"; "B"]]. *)
Theorem getEventList_spec :
  (∀ policy : LifecyclePolicy,
     getEventList policy = keepFirst (citedEvents policy) ∧
     NoDup (getEventList policy) ∧
     (∀ e, e ∈ getEventList policy ↔ e ∈ Events policy ∨ (e = Event policy ∧ e ≠ "")) ∧
     sublist (getEventList policy) (citedEvents policy) ∧
     (∀ i j x y,
        getEventList policy !! i = Some x → getEventList policy !! j = Some y → (i < j)%nat →
        ∃ i', citedEvents policy !! i' = Some x ∧
              ∀ j', citedEvents policy !! j' = Some y → (i' < j')%nat)) ∧
  (∀ action exitCode,
     getEventList {| Action := action; Event := "B"; Events := ["A"; "B"];
                     ExitCode := exitCode |} = ["A"; "B"]).
Proof.
  split; [|done].
  intros policy. rewrite getEventList_merge. split_and!.
  - done.
  - apply NoDup_keepFirst.
  - intros e. rewrite elem_of_keepFirst. unfold citedEvents.
    rewrite elem_of_app. destruct (decide (Event policy = "")) as [Heq|Hne].
    + rewrite elem_of_nil. rewrite Heq. naive_solver.
    + rewrite list_elem_of_singleton. naive_solver.
  - apply sublist_keepFirst.
  - apply keepFirst_order.
Qed.

(** ** The loop over the events of a policy *)


Lemma commaOk_test {T : Type} (m : gmap string bool) (k : string) (A B : T) :
  (let '(allow, ok) := commaOk m k in if negb ok || negb allow then A else B)
  = if decide (allowed m k) then B else A.
Proof.
  unfold commaOk. destruct (decide (allowed m k)) as [H|H]; unfold allowed in H.
  - by rewrite H.
  - destruct (m !! k) as [[]|]; simpl; congruence.
Qed.

Lemma lenZero_spec {A : Type} (l : list A) : lenZero l = true ↔ l = [].
Proof. by destruct l. Qed.

Lemma nonempty_true (s : string) : nonempty s = true ↔ s ≠ "".
Proof. by destruct s. Qed.

Lemma nonempty_false (s : string) : nonempty s = false ↔ s = "".
Proof. by destruct s. Qed.

Lemma eventSet_spec policy : eventSet policy = bool_decide (hasEventSpec policy).
Proof.
  unfold eventSet. symmetry. case_bool_decide as H; unfold hasEventSpec in H.
  - destruct H as [H|H].
    + apply nonempty_true in H. by rewrite H.
    + destruct (Events policy); [done|]. simpl. by rewrite orb_true_r.
  - destruct (Event policy), (Events policy); simpl; try done; exfalso; apply H; naive_solver.
Qed.

Lemma bothSet_spec policy :
  bothSet policy = bool_decide (hasEventSpec policy) && negb (isNil (ExitCode policy)).
Proof. unfold bothSet. fold (eventSet policy). by rewrite eventSet_spec. Qed.

Lemma neitherSet_spec policy :
  neitherSet policy = negb (bool_decide (hasEventSpec policy)) && isNil (ExitCode policy).
Proof.
  unfold neitherSet. f_equal. rewrite <- eventSet_spec. unfold eventSet.
  by rewrite negb_orb, negb_involutive.
Qed.

Lemma citedEvents_nil policy : citedEvents policy = [] ↔ ¬ hasEventSpec policy.
Proof.
  unfold citedEvents, hasEventSpec.
  destruct (Events policy); destruct (decide (Event policy = "")); simpl; naive_solver.
Qed.

Lemma getEventList_nil policy : getEventList policy = [] ↔ ¬ hasEventSpec policy.
Proof.
  rewrite getEventList_merge, <- citedEvents_nil.
  destruct (citedEvents policy); simpl; naive_solver.
Qed.

Lemma elem_of_getEventList policy e : e ∈ getEventList policy ↔ e ∈ citedEvents policy.
Proof. rewrite getEventList_merge. apply elem_of_keepFirst. Qed.

Lemma NoDup_getEventList policy : NoDup (getEventList policy).
Proof. rewrite getEventList_merge. apply NoDup_keepFirst. Qed.

Section events.

Context `{K : batchv1alpha1.Constants}.

Implicit Types (policy : LifecyclePolicy) (s : locals) (l : list string).

(** One iteration of the loop over the events, in words of the
    allow-lists. *)
Lemma rangeEvents_cons fldPath policy event rest s :
  rangeEvents fldPath policy (event :: rest) s =
    if decide (allowed policyEventMap event) then
      if decide (actionAllowed policy) then
        if decide (event ∈ policyEvents s) then
          (appendErr (fmt_Errorf ("duplicate event " +:+ event +:+
                                  "  across different policy")) s, true)
        else rangeEvents fldPath policy rest (recordEvent event s)
      else (appendErr (field_Invalid fldPath (Action policy) "invalid policy action") s, true)
    else (appendErr (field_Invalid fldPath event "invalid policy event") s, true).
Proof.
  simpl. rewrite commaOk_test.
  destruct (decide (allowed policyEventMap event)); [|done].
  rewrite commaOk_test.
  destruct (decide (actionAllowed policy)) as [Ha|Ha]; unfold actionAllowed in Ha.
  - rewrite decide_True by done. unfold found.
    by destruct (decide (event ∈ policyEvents s));
      [rewrite bool_decide_true by done | rewrite bool_decide_false by done].
  - by rewrite decide_False by done.
Qed.

Lemma rangeEvents_app fldPath policy l1 l2 s :
  rangeEvents fldPath policy (l1 ++ l2) s =
    match rangeEvents fldPath policy l1 s with
    | (s1, true) => (s1, true)
    | (s1, false) => rangeEvents fldPath policy l2 s1
    end.
Proof.
  revert s. induction l1 as [|e l1 IH]; intros s; [done|].
  rewrite <- app_comm_cons, !rangeEvents_cons.
  repeat case_decide; first [done | apply IH].
Qed.

Lemma recordEvents_cons e l s :
  recordEvents (e :: l) s = recordEvents l (recordEvent e s).
Proof. done. Qed.

Lemma policyEvents_recordEvents l s :
  policyEvents (recordEvents l s) = list_to_set l ∪ policyEvents s.
Proof.
  revert s. induction l as [|e l IH]; intros s.
  - simpl. set_solver.
  - rewrite recordEvents_cons, IH. simpl. set_solver.
Qed.

Lemma err_recordEvents l s : err (recordEvents l s) = err s.
Proof.
  revert s. induction l as [|e l IH]; intros s; [done|].
  by rewrite recordEvents_cons, IH.
Qed.

Lemma exitCodes_recordEvents l s : exitCodes (recordEvents l s) = exitCodes s.
Proof.
  revert s. induction l as [|e l IH]; intros s; [done|].
  by rewrite recordEvents_cons, IH.
Qed.

(** The loop runs to its end exactly on allowed events that were not
    seen before, with an allowed action. *)
Lemma rangeEvents_pass fldPath policy l s :
  NoDup l →
  (∀ e, e ∈ l → allowed policyEventMap e ∧ e ∉ policyEvents s) →
  (l ≠ [] → actionAllowed policy) →
  rangeEvents fldPath policy l s = (recordEvents l s, false).
Proof.
  revert s. induction l as [|e l IH]; intros s Hnd Hl Hact; [done|].
  apply NoDup_cons in Hnd as [Hnin Hnd].
  destruct (Hl e) as [He Hfresh]; [left|].
  rewrite rangeEvents_cons.
  rewrite decide_True by done. rewrite decide_True by (by apply Hact).
  rewrite decide_False by done.
  rewrite IH; [done|done| |by intros _; apply Hact].
  intros e' He'. destruct (Hl e') as [? ?]; [by right|]. split; [done|].
  simpl. set_solver.
Qed.

Lemma rangeEvents_pass_inv fldPath policy l s s' :
  rangeEvents fldPath policy l s = (s', false) →
  (∀ e, e ∈ l → allowed policyEventMap e ∧ e ∉ policyEvents s) ∧
  (l ≠ [] → actionAllowed policy) ∧
  s' = recordEvents l s.
Proof.
  revert s. induction l as [|e l IH]; intros s Hrun.
  - simpl in Hrun. simplify_eq. split_and!; [|done..]. intros e He. by apply elem_of_nil in He.
  - rewrite rangeEvents_cons in Hrun. repeat case_decide; try done.
    apply IH in Hrun as (Hl & _ & ->). split_and!; [|done..].
    intros e' [->|He']%elem_of_cons; [done|].
    destruct (Hl e' He') as [? Hfresh]. split; [done|]. simpl in Hfresh. set_solver.
Qed.

(** A loop left by [break] has appended one error and has changed
    neither the error list before it nor the exit codes. *)
Lemma rangeEvents_break fldPath policy l s s' :
  rangeEvents fldPath policy l s = (s', true) →
  ∃ e, err s' = multierror_Append (err s) e.
Proof.
  revert s. induction l as [|e l IH]; intros s Hrun; [done|].
  rewrite rangeEvents_cons in Hrun. repeat case_decide; simplify_eq; simpl; eauto.
  apply IH in Hrun as [e' He']. eauto.
Qed.

End events.

(** ** The loop over the policies *)

Section loop.

Context `{K : batchv1alpha1.Constants}.

Implicit Types (policy p : LifecyclePolicy) (s : locals) (ps : list LifecyclePolicy).

(** The body of the loop, by the two questions it asks of a policy. *)
Lemma policyBody_unfold fldPath policy s :
  policyBody fldPath policy s =
    if decide (hasEventSpec policy) then
      match ExitCode policy with
      | Some _ =>
          Ok (appendErr (fmt_Errorf "must not specify event and exitCode simultaneously") s,
              Break)
      | None => eventBranch fldPath policy s
      end
    else
      match ExitCode policy with
      | Some _ => exitCodeBranch policy s
      | None =>
          Ok (appendErr (fmt_Errorf "either event and exitCode should be specified") s,
              Break)
      end.
Proof.
  unfold policyBody. rewrite bothSet_spec, neitherSet_spec, eventSet_spec.
  destruct (decide (hasEventSpec policy)) as [He|He].
  - rewrite (bool_decide_true _ He). by destruct (ExitCode policy).
  - rewrite (bool_decide_false _ He). by destruct (ExitCode policy).
Qed.

Lemma exitCodeBranch_Some policy s code :
  ExitCode policy = Some code →
  exitCodeBranch policy s =
    if decide (code = 0) then
      Ok (appendErr (fmt_Errorf "0 is not a valid error code") s, Break)
    else if decide (code ∈ exitCodes s) then
      Ok (appendErr (fmt_Errorf ("duplicate exitCode " +:+ fmt_int32 code)) s, Break)
    else Ok (recordExitCode code s, Next).
Proof.
  intros Hc. unfold exitCodeBranch. rewrite Hc. simpl.
  destruct (decide (code = 0)) as [->|Hne]; [done|].
  apply Z.eqb_neq in Hne. rewrite Hne. unfold found.
  by destruct (decide (code ∈ exitCodes s));
    [rewrite bool_decide_true by done | rewrite bool_decide_false by done].
Qed.

Lemma list_to_set_getEventList policy :
  list_to_set (getEventList policy) =@{gset string} list_to_set (citedEvents policy).
Proof.
  apply set_eq. intros e. by rewrite !elem_of_list_to_set, elem_of_getEventList.
Qed.

Lemma policyEvents_recordPolicy evs codes policy s :
  admissible evs codes policy →
  policyEvents (recordPolicy policy s) = list_to_set (citedEvents policy) ∪ policyEvents s.
Proof.
  unfold recordPolicy. intros [(_ & -> & _)|(Hno & c & -> & _)].
  - by rewrite policyEvents_recordEvents, list_to_set_getEventList.
  - apply citedEvents_nil in Hno. rewrite Hno. simpl. set_solver.
Qed.

Lemma exitCodes_recordPolicy policy s :
  exitCodes (recordPolicy policy s) = codeOf policy ∪ exitCodes s.
Proof.
  unfold recordPolicy, codeOf. destruct (ExitCode policy); simpl; [done|].
  rewrite exitCodes_recordEvents. set_solver.
Qed.

Lemma err_recordPolicy policy s : err (recordPolicy policy s) = err s.
Proof.
  unfold recordPolicy. destruct (ExitCode policy); [done|]. apply err_recordEvents.
Qed.

(** The body goes on to the next policy exactly for an admissible
    policy, which it records. *)
Lemma policyBody_Next fldPath policy s s' :
  policyBody fldPath policy s = Ok (s', Next) ↔
  admissible (policyEvents s) (exitCodes s) policy ∧ s' = recordPolicy policy s.
Proof.
  rewrite policyBody_unfold. unfold admissible, recordPolicy.
  destruct (decide (hasEventSpec policy)) as [He|He];
    destruct (ExitCode policy) as [c|] eqn:Hc.
  - split; [done|]. intros [[(_ & ? & _)|(? & _)] _]; done.
  - unfold eventBranch.
    destruct (rangeEvents fldPath policy (getEventList policy) s) as [s1 [|]] eqn:Hrun.
    + split; [done|]. intros [[(_ & _ & Hl & Ha)|(? & _)] _]; [|done].
      rewrite rangeEvents_pass in Hrun; [done|apply NoDup_getEventList| |done].
      intros e He'. apply Hl. by apply elem_of_getEventList.
    + apply rangeEvents_pass_inv in Hrun as (Hl & Ha & ->). split.
      * intros ?; simplify_eq. split; [|done]. left. split_and!; [done|done| |].
        -- intros e He'. apply Hl. by apply elem_of_getEventList.
        -- apply Ha. by rewrite getEventList_nil; intros Hn; apply Hn.
      * by intros [_ ->].
  - rewrite (exitCodeBranch_Some _ _ _ Hc). repeat case_decide.
    + split; [done|]. intros [[(? & _)|(_ & c' & ? & ? & _)] _]; [done|]. congruence.
    + split; [done|]. intros [[(? & _)|(_ & c' & ? & _ & ?)] _]; [done|]. congruence.
    + split.
      * intros ?; simplify_eq. split; [|done]. right. split; [done|]. eauto.
      * by intros [_ ->].
  - split; [done|]. intros [[(? & _)|(_ & c' & ? & _)] _]; done.
Qed.

(** The body never faults, and a [break] appends exactly one error. *)
Lemma policyBody_Break fldPath policy s :
  (∃ s', policyBody fldPath policy s = Ok (s', Next)) ∨
  (∃ s' e, policyBody fldPath policy s = Ok (s', Break) ∧
           err s' = multierror_Append (err s) e).
Proof.
  rewrite policyBody_unfold.
  destruct (decide (hasEventSpec policy)) as [He|He];
    destruct (ExitCode policy) as [c|] eqn:Hc.
  - right. by eexists _, _.
  - unfold eventBranch.
    destruct (rangeEvents fldPath policy (getEventList policy) s) as [s1 [|]] eqn:Hrun.
    + right. apply rangeEvents_break in Hrun as [e He']. by eexists _, _.
    + left. by eexists.
  - rewrite (exitCodeBranch_Some _ _ _ Hc). repeat case_decide.
    + right. by eexists _, _.
    + right. by eexists _, _.
    + left. by eexists.
  - right. by eexists _, _.
Qed.

Lemma rangePolicies_cons_Next fldPath policy ps s s' :
  policyBody fldPath policy s = Ok (s', Next) →
  rangePolicies fldPath (policy :: ps) s = rangePolicies fldPath ps s'.
Proof. intros Hb. simpl. by rewrite Hb. Qed.

Lemma rangePolicies_cons_Break fldPath policy ps s s' :
  policyBody fldPath policy s = Ok (s', Break) →
  rangePolicies fldPath (policy :: ps) s = Ok (s', Break).
Proof. intros Hb. simpl. by rewrite Hb. Qed.

(** The loop ends: at the end of the slice with the error list as it
    was, or by a [break] with one error more. *)
Lemma rangePolicies_ends fldPath ps s :
  (∃ s', rangePolicies fldPath ps s = Ok (s', Next) ∧ err s' = err s) ∨
  (∃ s' e, rangePolicies fldPath ps s = Ok (s', Break) ∧
           err s' = multierror_Append (err s) e).
Proof.
  revert s. induction ps as [|p ps IH]; intros s.
  - left. by eexists.
  - destruct (policyBody_Break fldPath p s) as [[s1 Hb]|(s1 & e & Hb & He)].
    + rewrite (rangePolicies_cons_Next _ _ _ _ _ Hb).
      apply policyBody_Next in Hb as [_ ->].
      destruct (IH (recordPolicy p s)) as [(s' & -> & He)|(s' & e & -> & He)].
      * left. eexists. split; [done|]. by rewrite He, err_recordPolicy.
      * right. eexists _, _. split; [done|]. by rewrite He, err_recordPolicy.
    + rewrite (rangePolicies_cons_Break _ _ _ _ _ Hb). right. by eexists _, _.
Qed.

(** The loop reaches the end of the slice exactly on the lists it
    accepts, and has then recorded every cited event. *)
Lemma rangePolicies_Next fldPath ps s s' :
  rangePolicies fldPath ps s = Ok (s', Next) →
  accepts (policyEvents s) (exitCodes s) ps ∧
  err s' = err s ∧
  policyEvents s' = citedSet ps ∪ policyEvents s ∧
  exitCodes s' = codeSet ps ∪ exitCodes s.
Proof.
  revert s. induction ps as [|p ps IH]; intros s Hrun.
  - simpl in Hrun. simplify_eq. unfold citedSet, codeSet. simpl.
    split_and!; [done..| |]; set_solver.
  - destruct (policyBody_Break fldPath p s) as [[s1 Hb]|(s1 & e & Hb & He)].
    + rewrite (rangePolicies_cons_Next _ _ _ _ _ Hb) in Hrun.
      apply policyBody_Next in Hb as [Hadm ->].
      apply IH in Hrun as (Hacc & Herr & Hev & Hco).
      rewrite (policyEvents_recordPolicy _ _ _ _ Hadm), exitCodes_recordPolicy in Hacc.
      split_and!; [done| | |].
      * by rewrite Herr, err_recordPolicy.
      * rewrite Hev, (policyEvents_recordPolicy _ _ _ _ Hadm).
        unfold citedSet. simpl. rewrite list_to_set_app_L. set_solver.
      * rewrite Hco, exitCodes_recordPolicy. unfold codeSet, codeOf. simpl.
        destruct (ExitCode p); simpl; set_solver.
    + rewrite (rangePolicies_cons_Break _ _ _ _ _ Hb) in Hrun. done.
Qed.

Lemma rangePolicies_accepts fldPath ps s :
  accepts (policyEvents s) (exitCodes s) ps →
  ∃ s', rangePolicies fldPath ps s = Ok (s', Next).
Proof.
  revert s. induction ps as [|p ps IH]; intros s Hacc.
  - by eexists.
  - destruct Hacc as [Hadm Hacc].
    assert (policyBody fldPath p s = Ok (recordPolicy p s, Next)) as Hb
      by by apply policyBody_Next.
    rewrite (rangePolicies_cons_Next _ _ _ _ _ Hb). apply IH.
    by rewrite (policyEvents_recordPolicy _ _ _ _ Hadm), exitCodes_recordPolicy.
Qed.

End loop.

(** ** Accepted lists are the well-formed ones *)

Lemma noSharedEvent_cons p ps :
  noSharedEvent (p :: ps) ↔
  (∀ q e, q ∈ ps → e ∈ citedEvents p → e ∉ citedEvents q) ∧ noSharedEvent ps.
Proof.
  unfold noSharedEvent. split.
  - intros Hns. split.
    + intros q e [j Hj]%list_elem_of_lookup He.
      by apply (Hns 0%nat (S j) p q e).
    + intros i j p' q e Hij Hi Hj. by apply (Hns (S i) (S j) p' q e); [lia|..].
  - intros [Hhd Htl] [|i] [|j] p' q e Hij Hi Hj He; simpl in *; simplify_eq.
    + eapply Hhd; [|done]. by eapply list_elem_of_lookup_2.
    + intros Hq. apply (Hhd p' e); [by eapply list_elem_of_lookup_2|done..].
    + apply (Htl i j p' q e); [lia|done..].
Qed.

Lemma exitCodesValid_cons p ps :
  exitCodesValid (p :: ps) ↔
  ExitCode p ≠ Some 0 ∧
  (∀ q c, q ∈ ps → ExitCode p = Some c → ExitCode q ≠ Some c) ∧
  exitCodesValid ps.
Proof.
  unfold exitCodesValid. split.
  - intros [Hnz Hd]. split_and!.
    + apply Hnz. left.
    + intros q c [j Hj]%list_elem_of_lookup Hc. by apply (Hd 0%nat (S j) p q c).
    + intros q Hq. apply Hnz. by right.
    + intros i j p' q c Hij Hi Hj. by apply (Hd (S i) (S j) p' q c); [lia|..].
  - intros (Hp & Hhd & Hnz & Htl). split.
    + intros q [->|Hq]%elem_of_cons; [done|by apply Hnz].
    + intros [|i] [|j] p' q c Hij Hi Hj Hc; simpl in *; simplify_eq.
      * eapply Hhd; [|done]. by eapply list_elem_of_lookup_2.
      * intros Hq. apply (Hhd p' c); [by eapply list_elem_of_lookup_2|done..].
      * apply (Htl i j p' q c); [lia|done..].
Qed.

Lemma cited_cons p ps e : cited (p :: ps) e ↔ e ∈ citedEvents p ∨ cited ps e.
Proof.
  unfold cited. split.
  - intros (q & [->|Hq]%elem_of_cons & He); [by left|right; eauto].
  - intros [He|(q & Hq & He)]; [exists p|exists q]; split; try done; [left|by right].
Qed.

Lemma elem_of_citedSet ps e : e ∈ citedSet ps ↔ cited ps e.
Proof.
  unfold citedSet, cited. rewrite elem_of_list_to_set, list_elem_of_bind. naive_solver.
Qed.

Section accepted.

Context `{K : batchv1alpha1.Constants}.

Implicit Types (p : LifecyclePolicy) (ps : list LifecyclePolicy).

Lemma admissible_iff evs codes p :
  admissible evs codes p ↔
  exactlyOne p ∧ eventsAllowed p ∧ (hasEventSpec p → actionAllowed p) ∧
  ExitCode p ≠ Some 0 ∧
  (∀ e, e ∈ citedEvents p → e ∉ evs) ∧
  (∀ c, ExitCode p = Some c → c ∉ codes).
Proof.
  unfold admissible, exactlyOne, eventsAllowed, hasExitCode. split.
  - intros [(He & Hc & Hl & Ha)|(He & c & Hc & Hnz & Hfresh)].
    + rewrite Hc. split_and!; try done.
      * left. split; [done|]. by intros [].
      * intros e He'. by apply Hl.
      * intros e He'. by apply Hl.
    + rewrite Hc. apply citedEvents_nil in He as Hnil. rewrite Hnil. split_and!.
      * right. split; [done|]. eauto.
      * intros e He'. by apply elem_of_nil in He'.
      * done.
      * congruence.
      * intros e He'. by apply elem_of_nil in He'.
      * congruence.
  - intros ([[He Hc]|[He Hc]] & Hl & Ha & Hnz & Hfe & Hfc).
    + left. split_and!; [done| | |by apply Ha].
      * destruct (ExitCode p); [|done]. exfalso. apply Hc. eauto.
      * intros e He'. split; [by apply Hl|by apply Hfe].
    + right. split; [done|]. destruct Hc as [c Hc]. exists c. split_and!; [done| |by apply Hfc].
      intros ->. by apply Hnz.
Qed.

Lemma accepts_iff evs codes ps :
  accepts evs codes ps ↔
  (∀ p, p ∈ ps → exactlyOne p ∧ eventsAllowed p ∧ (hasEventSpec p → actionAllowed p)) ∧
  noSharedEvent ps ∧
  exitCodesValid ps ∧
  (∀ p e, p ∈ ps → e ∈ citedEvents p → e ∉ evs) ∧
  (∀ p c, p ∈ ps → ExitCode p = Some c → c ∉ codes).
Proof.
  revert evs codes. induction ps as [|p ps IH]; intros evs codes.
  - simpl. split; [intros _|done]. split_and!.
    + intros p Hp. by apply elem_of_nil in Hp.
    + intros i j p q e _ Hi. done.
    + split; [intros p Hp; by apply elem_of_nil in Hp|]. intros i j p q c _ Hi. done.
    + intros p e Hp. by apply elem_of_nil in Hp.
    + intros p c Hp. by apply elem_of_nil in Hp.
  - simpl. rewrite IH, admissible_iff, noSharedEvent_cons, exitCodesValid_cons.
    unfold codeOf. split.
    + intros ((Hone & Hev & Hact & Hnz & Hfe & Hfc) &
              Hall & Hns & Hcv & Hfe' & Hfc'). split_and!; try done.
      * intros q [->|Hq]%elem_of_cons; [done|by apply Hall].
      * intros q e Hq He Heq. apply (Hfe' q e Hq Heq).
        rewrite elem_of_union, elem_of_list_to_set. by left.
      * intros q c Hq Hc Hqc. apply (Hfc' q c Hq Hqc). rewrite Hc. set_solver.
      * intros q e [->|Hq]%elem_of_cons He; [by apply Hfe|].
        specialize (Hfe' q e Hq He). set_solver.
      * intros q c [->|Hq]%elem_of_cons Hc; [by apply Hfc|].
        specialize (Hfc' q c Hq Hc). set_solver.
    + intros (Hall & (Hhd & Hns) & (Hnz & Hhc & Hcv) & Hfe & Hfc).
      destruct (Hall p) as (Hone & Hev & Hact); [left|]. split_and!; try done.
      * intros e He. apply (Hfe p e); [left|done].
      * intros c Hc. apply (Hfc p c); [left|done].
      * intros q Hq. apply Hall. by right.
      * intros q e Hq He. rewrite elem_of_union, elem_of_list_to_set.
        intros [Hp|Hevs]; [by apply (Hhd q e Hq Hp)|].
        apply (Hfe q e); [by right|done..].
      * intros q c Hq Hc. destruct (ExitCode p) as [c'|] eqn:Hp.
        -- rewrite elem_of_union, elem_of_singleton. intros [->|Hcodes].
           ++ by apply (Hhc q c' Hq).
           ++ apply (Hfc q c); [by right|done..].
        -- intros [Hemp|Hcodes]%elem_of_union; [set_solver|].
           by apply (Hfc q c); [right|..].
Qed.

(** The test of the check after the loop, on a set of events. *)
Lemma wildcard_test (X : gset string) (a : string) :
  a ∈ X ∧ (1 < size X)%nat ↔ a ∈ X ∧ ∃ e, e ≠ a ∧ e ∈ X.
Proof.
  split.
  - intros [Ha Hsz]. split; [done|].
    assert (X = {[a]} ∪ X ∖ {[a]}) as HX.
    { apply set_eq. intros x. rewrite elem_of_union, elem_of_difference, elem_of_singleton.
      destruct (decide (x = a)); naive_solver. }
    rewrite HX, size_union, size_singleton in Hsz by set_solver.
    destruct (size_pos_elem_of (X ∖ {[a]})) as [e He]; [lia|].
    exists e. set_solver.
  - intros [Ha (e & Hne & He)]. split; [done|].
    assert ({[a; e]} ⊆ X) as Hsub by set_solver.
    apply subseteq_size in Hsub.
    rewrite size_union, !size_singleton in Hsub by set_solver. lia.
Qed.

Lemma wildcardCheck_fires s :
  batchv1alpha1.AnyEvent ∈ policyEvents s → (1 < size (policyEvents s))%nat →
  wildcardCheck s =
    multierror_Append (err s) (fmt_Errorf "if there's * here, no other policy should be here").
Proof.
  intros Ha Hsz. unfold wildcardCheck, found. by rewrite !bool_decide_true by done.
Qed.

Lemma wildcardCheck_silent s :
  ¬ (batchv1alpha1.AnyEvent ∈ policyEvents s ∧ (1 < size (policyEvents s))%nat) →
  wildcardCheck s = err s.
Proof.
  intros Hn. unfold wildcardCheck, found.
  destruct (decide (batchv1alpha1.AnyEvent ∈ policyEvents s)).
  - rewrite bool_decide_true by done. rewrite bool_decide_false; [done|]. naive_solver.
  - by rewrite bool_decide_false by done.
Qed.

Lemma multierror_Append_Some err0 e : ∃ errs, multierror_Append err0 e = Some errs ∧ errs ≠ [].
Proof.
  destruct err0 as [errs|]; simpl; eexists; split; try done.
  intros Hnil. by apply app_eq_nil in Hnil as [_ ?].
Qed.

Lemma wildcardCheck_None s :
  wildcardCheck s = None ↔
  err s = None ∧
  ¬ (batchv1alpha1.AnyEvent ∈ policyEvents s ∧ (1 < size (policyEvents s))%nat).
Proof.
  split.
  - intros Hw.
    destruct (decide (batchv1alpha1.AnyEvent ∈ policyEvents s ∧
                      (1 < size (policyEvents s))%nat)) as [[Ha Hsz]|Hn].
    + rewrite wildcardCheck_fires in Hw by done.
      destruct (multierror_Append_Some (err s)
        (fmt_Errorf "if there's * here, no other policy should be here")) as (? & ? & _).
      congruence.
    + by rewrite wildcardCheck_silent in Hw.
  - intros [He Hn]. by rewrite wildcardCheck_silent.
Qed.

(** [validatePolicies] returns nil exactly on the lists that the loop
    accepts and in which the wildcard is not cited beside another
    event. *)
Lemma validatePolicies_nil_accepts ps fldPath :
  validatePolicies ps fldPath = Ok None ↔ accepts ∅ ∅ ps ∧ wildcardAlone ps.
Proof.
  unfold validatePolicies, wildcardAlone. split.
  - intros Hv.
    destruct (rangePolicies_ends fldPath ps entry)
      as [(s & Hrun & Herr)|(s & e & Hrun & Herr)]; rewrite Hrun in Hv; simpl in Hv.
    + apply rangePolicies_Next in Hrun as (Hacc & _ & Hev & _). split; [done|].
      assert (wildcardCheck s = None) as [_ Hn]%wildcardCheck_None by congruence.
      intros [Ha (e & Hne & He)]. apply Hn. apply wildcard_test.
      rewrite Hev. simpl. split.
      * apply elem_of_union. left. by apply elem_of_citedSet.
      * exists e. split; [done|]. apply elem_of_union. left. by apply elem_of_citedSet.
    + assert (wildcardCheck s = None) as [Hnone _]%wildcardCheck_None by congruence.
      rewrite Herr in Hnone. by destruct (err entry).
  - intros [Hacc Hw].
    destruct (rangePolicies_accepts fldPath ps entry Hacc) as [s Hrun].
    rewrite Hrun. simpl. f_equal.
    apply rangePolicies_Next in Hrun as (_ & Herr & Hev & _).
    apply wildcardCheck_None. split; [by rewrite Herr|].
    intros [Ha (e & Hne & He)]%wildcard_test. apply Hw.
    rewrite Hev in Ha, He. simpl in Ha, He.
    rewrite elem_of_union, elem_of_citedSet in Ha, He. set_solver.
Qed.

(** [validatePolicies] returns nil exactly on the lists that are
    well-formed up to the action of the policies without an event
    specification, which no check reads. *)
Lemma validatePolicies_nil_iff ps fldPath :
  validatePolicies ps fldPath = Ok None ↔ wellFormedUpTo hasEventSpec ps.
Proof.
  rewrite validatePolicies_nil_accepts, accepts_iff. unfold wellFormedUpTo.
  split; [naive_solver|].
  intros (Hall & Hns & Hcv & Hw). by split_and!.
Qed.

(** A well-formed list, with every action allowed, is accepted. *)
Lemma validatePolicies_wellFormed ps fldPath :
  wellFormed ps → validatePolicies ps fldPath = Ok None.
Proof.
  intros (Hall & Hrest). apply validatePolicies_nil_iff. split; [|done].
  intros p Hp. destruct (Hall p Hp) as (? & ? & Ha). split_and!; [done..|].
  intros _. by apply Ha.
Qed.

End accepted.

(** ** The result of [validatePolicies] *)

Section result.

Context `{K : batchv1alpha1.Constants}.

Implicit Types (p : LifecyclePolicy) (ps pre suf : list LifecyclePolicy) (s : locals).

Lemma rangePolicies_app fldPath pre suf s :
  rangePolicies fldPath (pre ++ suf) s =
    match rangePolicies fldPath pre s with
    | Ok (s1, Next) => rangePolicies fldPath suf s1
    | r => r
    end.
Proof.
  revert s. induction pre as [|p pre IH]; intros s; [done|].
  rewrite <- app_comm_cons.
  destruct (policyBody_Break fldPath p s) as [[s1 Hb]|(s1 & e & Hb & He)].
  - rewrite !(rangePolicies_cons_Next _ _ _ _ _ Hb). apply IH.
  - by rewrite !(rangePolicies_cons_Break _ _ _ _ _ Hb).
Qed.

(** After a [break] of the body nothing of the rest of the slice is
    looked at. *)
Lemma rangePolicies_stop fldPath pre p suf s :
  (∀ s1, ∃ s2, policyBody fldPath p s1 = Ok (s2, Break)) →
  rangePolicies fldPath (pre ++ p :: suf) s = rangePolicies fldPath (pre ++ [p]) s.
Proof.
  intros Hb. rewrite !rangePolicies_app.
  destruct (rangePolicies fldPath pre s) as [[s1 [|]]|]; [|done..].
  destruct (Hb s1) as [s2 Hs2].
  by rewrite !(rangePolicies_cons_Break _ _ _ _ _ Hs2).
Qed.

Lemma accepts_app evs codes pre suf :
  accepts evs codes (pre ++ suf) → accepts evs codes pre.
Proof.
  revert evs codes. induction pre as [|p pre IH]; intros evs codes; [done|].
  simpl. intros [Hadm Hacc]. split; [done|]. by eapply IH.
Qed.

Lemma accepts_elem_of evs codes ps p :
  accepts evs codes ps → p ∈ ps → ∃ evs' codes', admissible evs' codes' p.
Proof.
  revert evs codes. induction ps as [|q ps IH]; intros evs codes Hacc Hp.
  - by apply elem_of_nil in Hp.
  - destruct Hacc as [Hadm Hacc]. apply elem_of_cons in Hp as [->|Hp]; [eauto|].
    by eapply IH.
Qed.

(** The result is the error list of the loop, followed by the error
    of the check after the loop when that check fires. *)
Lemma validatePolicies_unfold fldPath ps s f :
  rangePolicies fldPath ps entry = Ok (s, f) →
  validatePolicies ps fldPath = Ok (wildcardCheck s).
Proof. intros Hrun. unfold validatePolicies. by rewrite Hrun. Qed.

Lemma wildcardCheck_cases s :
  wildcardCheck s = err s ∨
  wildcardCheck s =
    multierror_Append (err s) (fmt_Errorf "if there's * here, no other policy should be here").
Proof. unfold wildcardCheck. destruct (_ && _); eauto. Qed.

(** A list with a policy that is not admissible is rejected. *)
Lemma validatePolicies_rejects fldPath ps p :
  p ∈ ps → (∀ evs codes, ¬ admissible evs codes p) →
  ∃ errs, validatePolicies ps fldPath = Ok (Some errs) ∧ errs ≠ [].
Proof.
  intros Hp Hbad.
  destruct (rangePolicies_ends fldPath ps entry)
    as [(s & Hrun & Herr)|(s & e & Hrun & Herr)].
  - apply rangePolicies_Next in Hrun as (Hacc & _).
    destruct (accepts_elem_of _ _ _ _ Hacc Hp) as (evs & codes & Hadm).
    by destruct (Hbad evs codes).
  - rewrite (validatePolicies_unfold _ _ _ _ Hrun).
    destruct (wildcardCheck_cases s) as [->| ->].
    + rewrite Herr. simpl. eexists. split; [done|]. done.
    + destruct (multierror_Append_Some (err s)
        (fmt_Errorf "if there's * here, no other policy should be here")) as (errs & -> & ?).
      eauto.
Qed.

End result.

(** C10: the branch of [validatePolicies] that reads [*policy.ExitCode] is
    taken only when the three tests before it fail, and then the single
    event is empty, the event list is empty and the exit code is not nil,
    so that the dereference returns; hence neither the loop body, nor the
    loop, nor [validatePolicies] ever ends in a nil dereference. *)
Theorem exitCode_deref_safe `{K : batchv1alpha1.Constants}
    (fldPath : string) (policy : LifecyclePolicy) (s : locals) :
  (bothSet policy = false → neitherSet policy = false → eventSet policy = false →
   Event policy = "" ∧ Events policy = [] ∧
   ∃ code, ExitCode policy = Some code ∧ deref (ExitCode policy) = Ok code ∧
           ∃ r, exitCodeBranch policy s = Ok r ∧ policyBody fldPath policy s = Ok r) ∧
  (∃ r, policyBody fldPath policy s = Ok r) ∧
  (∀ policies, ∃ r, rangePolicies fldPath policies s = Ok r) ∧
  (∀ policies, ∃ e, validatePolicies policies fldPath = Ok e).
Proof.
  split_and!.
  - intros Hboth Hneither Hevent. unfold policyBody. rewrite Hboth, Hneither, Hevent.
    unfold neitherSet, eventSet in *.
    apply orb_false_iff in Hevent as [Hev Hevs]. apply negb_false_iff, lenZero_spec in Hevs.
    rewrite Hev, Hevs in Hneither. simpl in Hneither.
    apply nonempty_false in Hev. split_and!; [done..|].
    destruct (ExitCode policy) as [code|] eqn:Hc; [|done].
    exists code. split_and!; [done..|].
    unfold exitCodeBranch. rewrite Hc. simpl.
    destruct (code =? 0); [eauto|]. destruct (found _ _); eauto.
  - destruct (policyBody_Break fldPath policy s) as [[s1 Hb]|(s1 & e & Hb & _)]; eauto.
  - intros policies.
    destruct (rangePolicies_ends fldPath policies s) as [(s1 & Hr & _)|(s1 & e & Hr & _)];
      eauto.
  - intros policies. unfold validatePolicies.
    destruct (rangePolicies_ends fldPath policies entry)
      as [(s1 & -> & _)|(s1 & e & -> & _)]; simpl; eauto.
Qed.

Lemma exitCode_deref_safe_witness :
  let policy := {| Action := "AbortJob"; Event := ""; Events := []; ExitCode := Some 3 |} in
  (bothSet policy = false ∧ neitherSet policy = false ∧ eventSet policy = false) ∧
  Event policy = "" ∧ Events policy = [] ∧
  ∃ code, ExitCode policy = Some code ∧ deref (ExitCode policy) = Ok code ∧
          ∃ r, exitCodeBranch policy entry = Ok r ∧
               policyBody (K:=specConstants) "spec.policies" policy entry = Ok r.
Proof.
  intros policy. split; [by split_and!|].
  apply (exitCode_deref_safe (K:=specConstants) "spec.policies" policy entry); reflexivity.
Defined.

(** C3: the error returned by [validatePolicies] is nil or wraps one or
    two errors: the loop leaves at most one, exactly one when it was left
    by a [break] and none when it ran to the end, and the check after the
    loop adds at most one. *)
Theorem validatePolicies_at_most_two `{K : batchv1alpha1.Constants}
    (policies : list LifecyclePolicy) (fldPath : string) :
  ∃ s f result,
    rangePolicies fldPath policies entry = Ok (s, f) ∧
    validatePolicies policies fldPath = Ok result ∧
    ((f = Next ∧ err s = None) ∨ (f = Break ∧ ∃ e, err s = Some [e])) ∧
    (result = err s ∨
     result = multierror_Append (err s)
                (fmt_Errorf "if there's * here, no other policy should be here")) ∧
    (length (unwrap (err s)) ≤ 1)%nat ∧
    (length (unwrap result) ≤ length (unwrap (err s)) + 1)%nat ∧
    (result = None ∨ ∃ errs, result = Some errs ∧ (1 ≤ length errs ≤ 2)%nat).
Proof.
  destruct (rangePolicies_ends fldPath policies entry)
    as [(s & Hrun & Herr)|(s & e & Hrun & Herr)]; simpl in Herr.
  - exists s, Next, (wildcardCheck s).
    rewrite (validatePolicies_unfold _ _ _ _ Hrun).
    split_and!; [done|done|by left|apply wildcardCheck_cases|by rewrite Herr; simpl; lia|..].
    + destruct (wildcardCheck_cases s) as [Hw|Hw]; rewrite Hw, Herr; simpl; lia.
    + destruct (wildcardCheck_cases s) as [Hw|Hw]; rewrite Hw, Herr; simpl; [by left|].
      right. eexists. split; [done|]. simpl. lia.
  - exists s, Break, (wildcardCheck s).
    rewrite (validatePolicies_unfold _ _ _ _ Hrun).
    split_and!; [done|done|right; eauto|apply wildcardCheck_cases|
                 by rewrite Herr; simpl; lia|..].
    + destruct (wildcardCheck_cases s) as [Hw|Hw]; rewrite Hw, Herr; simpl; lia.
    + right. destruct (wildcardCheck_cases s) as [Hw|Hw]; rewrite Hw, Herr; simpl;
        eexists; (split; [done|]); simpl; lia.
Qed.

Lemma multierror_Append_unwrap err0 e :
  multierror_Append err0 e = Some (unwrap err0 ++ [e]).
Proof. by destruct err0. Qed.

(** C2 (as amended): the check for the wildcard runs after the loop over
    the policies, also when that loop was left by a [break]: whenever the
    wildcard event is among the recorded events and more than one event is
    recorded, the error "if there's * here, no other policy should be
    here" is appended to what the loop has left, so that after a [break]
    the result wraps the error of the loop and then this one. *)
Theorem wildcard_check_after_loop `{K : batchv1alpha1.Constants}
    (policies : list LifecyclePolicy) (fldPath : string) (s : locals) (f : flow) :
  rangePolicies fldPath policies entry = Ok (s, f) →
  batchv1alpha1.AnyEvent ∈ policyEvents s →
  (1 < size (policyEvents s))%nat →
  validatePolicies policies fldPath =
    Ok (Some (unwrap (err s) ++
              [fmt_Errorf "if there's * here, no other policy should be here"])) ∧
  (f = Break →
   ∃ e, validatePolicies policies fldPath =
          Ok (Some [e; fmt_Errorf "if there's * here, no other policy should be here"])).
Proof.
  intros Hrun Hany Hsz.
  rewrite (validatePolicies_unfold _ _ _ _ Hrun), wildcardCheck_fires by done.
  rewrite multierror_Append_unwrap. split; [done|].
  intros ->.
  destruct (rangePolicies_ends fldPath policies entry)
    as [(s' & Hrun' & _)|(s' & e & Hrun' & Herr)]; [congruence|].
  assert (s' = s) as -> by congruence.
  exists e. by rewrite Herr.
Qed.

Lemma wildcard_check_after_loop_witness :
  let wild := {| Action := "AbortJob"; Event := "Any"; Events := ["PodFailed"];
                 ExitCode := None |} in
  let none := {| Action := "AbortJob"; Event := ""; Events := []; ExitCode := None |} in
  let s := appendErr (fmt_Errorf "either event and exitCode should be specified")
             (recordEvents ["PodFailed"; "Any"] entry) in
  (rangePolicies (K:=specConstants) "spec.policies" [wild; none] entry = Ok (s, Break) ∧
   "Any" ∈ policyEvents s ∧ (1 < size (policyEvents s))%nat) ∧
  validatePolicies (K:=specConstants) [wild; none] "spec.policies" =
    Ok (Some [fmt_Errorf "either event and exitCode should be specified";
              fmt_Errorf "if there's * here, no other policy should be here"]).
Proof.
  intros wild none s.
  assert (rangePolicies (K:=specConstants) "spec.policies" [wild; none] entry = Ok (s, Break))
    as Hrun by reflexivity.
  assert ("Any" ∈ policyEvents s) as Hany by (by vm_compute).
  assert (1 < size (policyEvents s))%nat as Hsz by (vm_compute; lia).
  split; [done|].
  apply (wildcard_check_after_loop (K:=specConstants) _ _ _ _ Hrun Hany Hsz).
Defined.

(** The statement of C2 with the text that the claim gives to the error
    fails: on a single policy that cites the wildcard and another event,
    the error that is returned does not carry that text. *)
Lemma wildcard_message_counterexample :
  ¬ (∀ (K : batchv1alpha1.Constants) policies fldPath s f,
       rangePolicies fldPath policies entry = Ok (s, f) →
       batchv1alpha1.AnyEvent ∈ policyEvents s →
       (1 < size (policyEvents s))%nat →
       ∃ errs, validatePolicies policies fldPath = Ok (Some errs) ∧
               ∃ e, e ∈ errs ∧
                    mentions "if there's a wildcard, no other policy should be present" e = true).
Proof.
  intros Hclaim.
  pose (wild := {| Action := "AbortJob"; Event := "Any"; Events := ["PodFailed"];
                   ExitCode := None |}).
  destruct (Hclaim specConstants [wild] "spec.policies"
              (recordEvents ["PodFailed"; "Any"] entry) Next)
    as (errs & Hv & e & He & Hm).
  - reflexivity.
  - by vm_compute.
  - vm_compute. lia.
  - assert (errs = [fmt_Errorf "if there's * here, no other policy should be here"])
      as -> by (vm_compute in Hv; congruence).
    apply list_elem_of_singleton in He as ->. vm_compute in Hm. discriminate.
Qed.

(** C4 (as amended): a policy with both an event specification and an exit
    code makes [validatePolicies] return a non-nil error whatever the list
    around it, and no policy after it is looked at; when every policy
    before it passes the checks, the loop is left at this policy and the
    first error returned is "must not specify event and exitCode
    simultaneously". *)
Theorem simultaneous_stops `{K : batchv1alpha1.Constants}
    (fldPath : string) (pre : list LifecyclePolicy) (p : LifecyclePolicy)
    (suf : list LifecyclePolicy) :
  hasEventSpec p → hasExitCode p →
  (∃ errs, validatePolicies (pre ++ p :: suf) fldPath = Ok (Some errs) ∧ errs ≠ []) ∧
  (∀ s, rangePolicies fldPath (pre ++ p :: suf) s = rangePolicies fldPath (pre ++ [p]) s) ∧
  validatePolicies (pre ++ p :: suf) fldPath = validatePolicies (pre ++ [p]) fldPath ∧
  (accepts ∅ ∅ pre →
   ∃ s, rangePolicies fldPath pre entry = Ok (s, Next) ∧
        rangePolicies fldPath (pre ++ p :: suf) entry =
          Ok (appendErr (fmt_Errorf "must not specify event and exitCode simultaneously") s,
              Break) ∧
        ∃ rest, validatePolicies (pre ++ p :: suf) fldPath =
                  Ok (Some (fmt_Errorf "must not specify event and exitCode simultaneously"
                            :: rest)) ∧
                mentions "simultaneously"
                  (fmt_Errorf "must not specify event and exitCode simultaneously") = true).
Proof.
  intros Hev [c Hc].
  assert (∀ s1, policyBody fldPath p s1 =
                Ok (appendErr (fmt_Errorf "must not specify event and exitCode simultaneously")
                      s1, Break)) as Hbody.
  { intros s1. rewrite policyBody_unfold, decide_True by done. by rewrite Hc. }
  assert (∀ s, rangePolicies fldPath (pre ++ p :: suf) s = rangePolicies fldPath (pre ++ [p]) s)
    as Hstop.
  { intros s. apply rangePolicies_stop. intros s1. eexists. apply Hbody. }
  split_and!.
  - apply (validatePolicies_rejects fldPath _ p).
    + apply elem_of_app. right. left.
    + intros evs codes [(_ & Hnone & _)|(Hno & _)]; [congruence|done].
  - done.
  - unfold validatePolicies. by rewrite Hstop.
  - intros Hacc.
    destruct (rangePolicies_accepts fldPath pre entry Hacc) as [s Hrun].
    exists s. split; [done|].
    assert (rangePolicies fldPath (pre ++ p :: suf) entry =
            Ok (appendErr (fmt_Errorf "must not specify event and exitCode simultaneously") s,
                Break)) as Hall.
    { rewrite rangePolicies_app, Hrun. by apply rangePolicies_cons_Break. }
    split; [done|].
    rewrite (validatePolicies_unfold _ _ _ _ Hall).
    apply rangePolicies_Next in Hrun as (_ & Herr & _). simpl in Herr.
    destruct (wildcardCheck_cases
      (appendErr (fmt_Errorf "must not specify event and exitCode simultaneously") s))
      as [-> | ->]; simpl; rewrite Herr; simpl; eauto.
Qed.

Lemma simultaneous_stops_witness :
  let ok := {| Action := "AbortJob"; Event := "PodFailed"; Events := []; ExitCode := None |} in
  let both := {| Action := "AbortJob"; Event := "PodEvicted"; Events := [];
                 ExitCode := Some 3 |} in
  let later := {| Action := "AbortJob"; Event := ""; Events := []; ExitCode := Some 0 |} in
  (hasEventSpec both ∧ hasExitCode both ∧ accepts (K:=specConstants) ∅ ∅ [ok]) ∧
  validatePolicies (K:=specConstants) [ok; both; later] "spec.policies" =
    validatePolicies (K:=specConstants) [ok; both] "spec.policies" ∧
  ∃ rest, validatePolicies (K:=specConstants) [ok; both; later] "spec.policies" =
            Ok (Some (fmt_Errorf "must not specify event and exitCode simultaneously" :: rest)).
Proof.
  intros ok both later.
  assert (hasEventSpec both) as Hev by (left; done).
  assert (hasExitCode both) as Hc by (by eexists).
  assert (accepts (K:=specConstants) ∅ ∅ [ok]) as Hacc.
  { split; [|done]. left. split_and!; [by left|done| |by vm_compute].
    intros e ->%list_elem_of_singleton. split; [by vm_compute|apply not_elem_of_empty]. }
  split; [done|].
  destruct (simultaneous_stops (K:=specConstants) "spec.policies" [ok] both [later] Hev Hc)
    as (_ & _ & Heq & Hfirst).
  split; [exact Heq|].
  destruct (Hfirst Hacc) as (s & _ & _ & rest & Hres & _). by exists rest.
Defined.

(** The statement of C4 for every list fails: when an earlier policy
    breaks a rule, the loop is left there and the error returned does not
    mention the policy that sets both. *)
Lemma simultaneous_counterexample :
  ¬ (∀ (K : batchv1alpha1.Constants) policies fldPath p,
       p ∈ policies → hasEventSpec p → hasExitCode p →
       ∃ errs, validatePolicies policies fldPath = Ok (Some errs) ∧
               ∃ e, e ∈ errs ∧ mentions "simultaneously" e = true).
Proof.
  intros Hclaim.
  pose (none := {| Action := "AbortJob"; Event := ""; Events := []; ExitCode := None |}).
  pose (both := {| Action := "AbortJob"; Event := "PodFailed"; Events := [];
                   ExitCode := Some 3 |}).
  destruct (Hclaim specConstants [none; both] "spec.policies" both)
    as (errs & Hv & e & He & Hm).
  - right. left.
  - by left.
  - by eexists.
  - assert (errs = [fmt_Errorf "either event and exitCode should be specified"])
      as -> by (vm_compute in Hv; congruence).
    apply list_elem_of_singleton in He as ->. vm_compute in Hm. discriminate.
Qed.

(** ** The allow-lists *)

Section tables.

Context `{K : batchv1alpha1.Constants}.

Lemma not_allowed_iff (m : gmap string bool) (k : string) :
  ¬ allowed m k ↔ m !! k = None ∨ m !! k = Some false.
Proof. unfold allowed. destruct (m !! k) as [[]|]; naive_solver. Qed.

(** The internal-only events and actions are keys with flag false. *)
Lemma internal_only :
  distinctConstants K →
  policyEventMap !! batchv1alpha1.OutOfSyncEvent = Some false ∧
  policyEventMap !! batchv1alpha1.CommandIssuedEvent = Some false ∧
  policyActionMap !! batchv1alpha1.SyncJobAction = Some false ∧
  policyActionMap !! batchv1alpha1.EnqueueAction = Some false.
Proof.
  intros [He Ha]. unfold policyEventMap, policyActionMap.
  split_and!; apply elem_of_list_to_map_1; try assumption;
    rewrite !elem_of_cons; auto 10.
Qed.

End tables.

Section branches.

Context `{K : batchv1alpha1.Constants}.

Implicit Types (p : LifecyclePolicy) (ps pre suf : list LifecyclePolicy) (s : locals).

(** When the policies before [p] pass and the body breaks at [p] with
    the error [e], this error is the first one returned. *)
Lemma validatePolicies_break_at fldPath pre p suf s e :
  rangePolicies fldPath pre entry = Ok (s, Next) →
  policyBody fldPath p s = Ok (appendErr e s, Break) →
  ∃ rest, validatePolicies (pre ++ p :: suf) fldPath = Ok (Some (e :: rest)).
Proof.
  intros Hrun Hb.
  assert (rangePolicies fldPath (pre ++ p :: suf) entry = Ok (appendErr e s, Break)) as Hall.
  { rewrite rangePolicies_app, Hrun. by apply rangePolicies_cons_Break. }
  rewrite (validatePolicies_unfold _ _ _ _ Hall).
  apply rangePolicies_Next in Hrun as (_ & Herr & _). simpl in Herr.
  destruct (wildcardCheck_cases (appendErr e s)) as [-> | ->];
    simpl; rewrite Herr; simpl; eauto.
Qed.

Lemma elem_of_codeSet ps c : c ∈ codeSet ps ↔ ∃ q, q ∈ ps ∧ ExitCode q = Some c.
Proof. unfold codeSet. by rewrite elem_of_list_to_set, list_elem_of_omap. Qed.

End branches.

(** C5: on the path of a policy with an exit code and no event
    specification, the exit code 0 is rejected with "0 is not a valid
    error code", a non-zero exit code that an earlier policy has recorded
    is rejected as a duplicate exitCode, and a list of policies that carry
    only non-zero, pairwise distinct exit codes is accepted. *)
Theorem exitCode_path `{K : batchv1alpha1.Constants} (fldPath : string) :
  (∀ p s, ¬ hasEventSpec p → ExitCode p = Some 0 →
     policyBody fldPath p s =
       Ok (appendErr (fmt_Errorf "0 is not a valid error code") s, Break)) ∧
  (∀ pre p suf, ¬ hasEventSpec p → ExitCode p = Some 0 →
     (∃ errs, validatePolicies (pre ++ p :: suf) fldPath = Ok (Some errs) ∧ errs ≠ []) ∧
     (accepts ∅ ∅ pre →
      ∃ rest, validatePolicies (pre ++ p :: suf) fldPath =
                Ok (Some (fmt_Errorf "0 is not a valid error code" :: rest)))) ∧
  (∀ p s code, ¬ hasEventSpec p → ExitCode p = Some code → code ≠ 0 →
     code ∈ exitCodes s →
     policyBody fldPath p s =
       Ok (appendErr (fmt_Errorf ("duplicate exitCode " +:+ fmt_int32 code)) s, Break)) ∧
  (∀ pre q p suf code, ¬ hasEventSpec p → ExitCode p = Some code → code ≠ 0 →
     q ∈ pre → ExitCode q = Some code → accepts ∅ ∅ pre →
     ∃ rest, validatePolicies (pre ++ p :: suf) fldPath =
               Ok (Some (fmt_Errorf ("duplicate exitCode " +:+ fmt_int32 code) :: rest))) ∧
  (∀ ps, (∀ p, p ∈ ps → ¬ hasEventSpec p ∧ ∃ code, ExitCode p = Some code ∧ code ≠ 0) →
     NoDup (ExitCode <$> ps) →
     validatePolicies ps fldPath = Ok None).
Proof.
  assert (∀ p s, ¬ hasEventSpec p → ExitCode p = Some 0 →
            policyBody fldPath p s =
              Ok (appendErr (fmt_Errorf "0 is not a valid error code") s, Break)) as Hzero.
  { intros p s Hno Hc. rewrite policyBody_unfold, decide_False by done.
    rewrite Hc, (exitCodeBranch_Some _ _ _ Hc). by rewrite decide_True. }
  assert (∀ p s code, ¬ hasEventSpec p → ExitCode p = Some code → code ≠ 0 →
            code ∈ exitCodes s →
            policyBody fldPath p s =
              Ok (appendErr (fmt_Errorf ("duplicate exitCode " +:+ fmt_int32 code)) s, Break))
    as Hdup.
  { intros p s code Hno Hc Hnz Hin. rewrite policyBody_unfold, decide_False by done.
    rewrite Hc, (exitCodeBranch_Some _ _ _ Hc).
    rewrite decide_False by done. by rewrite decide_True. }
  split_and!.
  - done.
  - intros pre p suf Hno Hc. split.
    + apply (validatePolicies_rejects fldPath _ p).
      * apply elem_of_app. right. left.
      * intros evs codes [(? & _)|(_ & c & ? & ? & _)]; [done|congruence].
    + intros Hacc. destruct (rangePolicies_accepts fldPath pre entry Hacc) as [s Hrun].
      eapply validatePolicies_break_at; [done|]. by apply Hzero.
  - done.
  - intros pre q p suf code Hno Hc Hnz Hq Hqc Hacc.
    destruct (rangePolicies_accepts fldPath pre entry Hacc) as [s Hrun].
    eapply validatePolicies_break_at; [done|]. apply Hdup; [done..|].
    apply rangePolicies_Next in Hrun as (_ & _ & _ & ->).
    apply elem_of_union. left. apply elem_of_codeSet. eauto.
  - intros ps Hall Hnd. apply validatePolicies_nil_iff.
    assert (∀ p, p ∈ ps → citedEvents p = []) as Hnil.
    { intros p Hp. apply citedEvents_nil. by apply Hall. }
    split_and!.
    + intros p Hp. destruct (Hall p Hp) as (Hno & c & Hc & Hnz). split_and!.
      * right. split; [done|]. by exists c.
      * intros e He. rewrite (Hnil p Hp) in He. by apply elem_of_nil in He.
      * done.
    + intros i j p q e _ Hi _ He.
      rewrite (Hnil p) in He by (by eapply list_elem_of_lookup_2).
      by apply elem_of_nil in He.
    + split.
      * intros p Hp. destruct (Hall p Hp) as (_ & c & Hc & Hnz). congruence.
      * intros i j p q c Hij Hi Hj Hpc Hqc. apply Hij.
        eapply (NoDup_lookup _ i j (Some c) Hnd).
        -- by rewrite list_lookup_fmap, Hi; simpl; rewrite Hpc.
        -- by rewrite list_lookup_fmap, Hj; simpl; rewrite Hqc.
    + intros [(p & Hp & He) _]. rewrite (Hnil p Hp) in He. by apply elem_of_nil in He.
Qed.

Lemma exitCode_path_witness :
  let code (c : Z) := {| Action := "RestartJob"; Event := ""; Events := [];
                         ExitCode := Some c |} in
  (¬ hasEventSpec (code 0) ∧ ¬ hasEventSpec (code 3) ∧ (3 : Z) ≠ 0 ∧
   accepts (K:=specConstants) ∅ ∅ [code 3] ∧ NoDup (ExitCode <$> [code 3; code 4])) ∧
  (∃ rest, validatePolicies (K:=specConstants) [code 3; code 0; code 4] "spec.policies" =
             Ok (Some (fmt_Errorf "0 is not a valid error code" :: rest))) ∧
  (∃ rest, validatePolicies (K:=specConstants) [code 3; code 3; code 4] "spec.policies" =
             Ok (Some (fmt_Errorf ("duplicate exitCode " +:+ fmt_int32 3) :: rest))) ∧
  validatePolicies (K:=specConstants) [code 3; code 4] "spec.policies" = Ok None.
Proof.
  intros code.
  assert (∀ c, ¬ hasEventSpec (code c)) as Hno by (intros c [?|?]; done).
  assert (accepts (K:=specConstants) ∅ ∅ [code 3]) as Hacc.
  { split; [|done]. right. split; [apply Hno|]. exists 3. split_and!; [done..|].
    apply not_elem_of_empty. }
  assert (NoDup (ExitCode <$> [code 3; code 4])) as Hnd.
  { refine (bool_decide_unpack _ _). by vm_compute. }
  split; [split_and!; try done; apply Hno|].
  destruct (exitCode_path (K:=specConstants) "spec.policies")
    as (_ & Hzero & _ & Hdup & Hok).
  split_and!.
  - apply (Hzero [code 3] (code 0) [code 4]); [apply Hno|done|done].
  - apply (Hdup [code 3] (code 3) (code 3) [code 4] 3);
      [apply Hno|done|done|left|done|done].
  - apply Hok; [|done]. intros p Hp. split.
    + apply elem_of_cons in Hp as [->|Hp]; [apply Hno|].
      apply list_elem_of_singleton in Hp as ->. apply Hno.
    + apply elem_of_cons in Hp as [->|Hp]; [by exists 3|].
      apply list_elem_of_singleton in Hp as ->. by exists 4.
Defined.

(** C6 (as amended): for a policy with an event specification and no exit
    code that the loop reaches, the events of the merged list are checked
    in order and, for each event, the event is checked before the action.
    At the first event at which a check fails, the events before it having
    passed: when the event is not a key of the event allow-list or has
    flag false, as the internal-only events have, the violation is
    "invalid policy event", whatever the action; when the event is allowed
    while the action is not a key of the action allow-list or has flag
    false, the violation is "invalid policy action".  In both cases the
    loop over the events and the loop over the policies are left, the
    violation is appended to the errors found so far, and when the
    policies before this one pass it is the first error that
    [validatePolicies] returns, alone or followed by the error of the
    check for the wildcard. *)
Theorem event_before_action `{K : batchv1alpha1.Constants} (fldPath : string)
    (policy : LifecyclePolicy) (l1 : list batchv1alpha1.Event) (event : batchv1alpha1.Event)
    (l2 : list batchv1alpha1.Event) (s s1 : locals) :
  hasEventSpec policy → ExitCode policy = None →
  getEventList policy = l1 ++ event :: l2 →
  rangeEvents fldPath policy l1 s = (s1, false) →
  let eventError := field_Invalid fldPath event "invalid policy event" in
  let actionError := field_Invalid fldPath (Action policy) "invalid policy action" in
  let wildcardError := fmt_Errorf "if there's * here, no other policy should be here" in
  let leftWith (e : error) :=
    rangeEvents fldPath policy (getEventList policy) s = (appendErr e s1, true) ∧
    policyBody fldPath policy s = Ok (appendErr e s1, Break) ∧
    (∀ rest, rangePolicies fldPath (policy :: rest) s = Ok (appendErr e s1, Break)) ∧
    err (appendErr e s1) = Some (unwrap (err s) ++ [e]) ∧
    (∀ pre suf,
       rangePolicies fldPath pre entry = Ok (s, Next) →
       rangePolicies fldPath (pre ++ policy :: suf) entry = Ok (appendErr e s1, Break) ∧
       err (appendErr e s1) = Some [e] ∧
       (validatePolicies (pre ++ policy :: suf) fldPath = Ok (Some [e]) ∨
        validatePolicies (pre ++ policy :: suf) fldPath = Ok (Some [e; wildcardError]))) in
  (policyEventMap !! event = None ∨ policyEventMap !! event = Some false →
   leftWith eventError) ∧
  (policyEventMap !! event = Some true →
   policyActionMap !! Action policy = None ∨ policyActionMap !! Action policy = Some false →
   leftWith actionError) ∧
  (distinctConstants K →
   policyEventMap !! batchv1alpha1.OutOfSyncEvent = Some false ∧
   policyEventMap !! batchv1alpha1.CommandIssuedEvent = Some false).
Proof.
  intros Hev Hc Hlist Hpre eventError actionError wildcardError leftWith.
  assert (err s1 = err s) as Herr.
  { apply rangeEvents_pass_inv in Hpre as (_ & _ & ->). apply err_recordEvents. }
  assert (∀ e, rangeEvents fldPath policy (getEventList policy) s = (appendErr e s1, true) →
            leftWith e) as Hleave.
  { intros e Hrun.
    assert (policyBody fldPath policy s = Ok (appendErr e s1, Break)) as Hb.
    { rewrite policyBody_unfold, decide_True by done. rewrite Hc. unfold eventBranch.
      by rewrite Hrun. }
    split_and!; [done|done| | |].
    - intros rest. by apply rangePolicies_cons_Break.
    - simpl. by rewrite Herr, multierror_Append_unwrap.
    - intros pre suf Hrun'.
      assert (rangePolicies fldPath (pre ++ policy :: suf) entry = Ok (appendErr e s1, Break))
        as Hall.
      { rewrite rangePolicies_app, Hrun'. by apply rangePolicies_cons_Break. }
      apply rangePolicies_Next in Hrun' as (_ & Hnone & _). simpl in Hnone.
      assert (err (appendErr e s1) = Some [e]) as Hone.
      { simpl. by rewrite Herr, Hnone. }
      split_and!; [done|done|].
      rewrite (validatePolicies_unfold _ _ _ _ Hall).
      destruct (wildcardCheck_cases (appendErr e s1)) as [-> | ->]; rewrite Hone; auto. }
  split_and!.
  - intros Hbad%not_allowed_iff. apply Hleave.
    rewrite Hlist, rangeEvents_app, Hpre, rangeEvents_cons. by rewrite decide_False.
  - intros Hok Hbad%not_allowed_iff. apply Hleave.
    rewrite Hlist, rangeEvents_app, Hpre, rangeEvents_cons.
    rewrite decide_True by done. by rewrite decide_False.
  - intros Hd. destruct (internal_only Hd) as (? & ? & _). done.
Qed.

Lemma event_before_action_witness :
  let internal := {| Action := "SyncJob"; Event := "OutOfSync"; Events := [];
                     ExitCode := None |} in
  let second := {| Action := "AbortJob"; Event := "Bogus"; Events := ["PodFailed"];
                   ExitCode := None |} in
  let action := {| Action := "SyncJob"; Event := "PodFailed"; Events := [];
                   ExitCode := None |} in
  (hasEventSpec internal ∧ hasEventSpec second ∧ hasEventSpec action ∧
   getEventList second = ["PodFailed"] ++ "Bogus" :: [] ∧
   rangeEvents (K:=specConstants) "spec.policies" second ["PodFailed"] entry =
     (recordEvents ["PodFailed"] entry, false) ∧
   rangePolicies (K:=specConstants) "spec.policies" [] entry = Ok (entry, Next) ∧
   policyEventMap (K:=specConstants) !! "OutOfSync" = Some false ∧
   policyEventMap (K:=specConstants) !! "Bogus" = None ∧
   policyEventMap (K:=specConstants) !! "PodFailed" = Some true ∧
   policyActionMap (K:=specConstants) !! "SyncJob" = Some false ∧
   distinctConstants specConstants) ∧
  validatePolicies (K:=specConstants) [internal] "spec.policies" =
    Ok (Some [field_Invalid "spec.policies" "OutOfSync" "invalid policy event"]) ∧
  validatePolicies (K:=specConstants) [second; internal] "spec.policies" =
    Ok (Some [field_Invalid "spec.policies" "Bogus" "invalid policy event"]) ∧
  validatePolicies (K:=specConstants) [action] "spec.policies" =
    Ok (Some [field_Invalid "spec.policies" "SyncJob" "invalid policy action"]) ∧
  policyEventMap (K:=specConstants) !! @batchv1alpha1.OutOfSyncEvent specConstants
    = Some false ∧
  policyEventMap (K:=specConstants) !! @batchv1alpha1.CommandIssuedEvent specConstants
    = Some false.
Proof.
  intros internal second action.
  assert (hasEventSpec internal) as Hi by (by left).
  assert (hasEventSpec second) as Hs by (by left).
  assert (hasEventSpec action) as Ha by (by left).
  assert (distinctConstants specConstants) as Hd.
  { split; refine (bool_decide_unpack _ _); by vm_compute. }
  assert (rangePolicies (K:=specConstants) "spec.policies" [] entry = Ok (entry, Next))
    as Hreach by reflexivity.
  split; [by split_and!|].
  assert (∀ e (w := fmt_Errorf "if there's * here, no other policy should be here")
            (ps : list LifecyclePolicy),
            (validatePolicies (K:=specConstants) ps "spec.policies" = Ok (Some [e]) ∨
             validatePolicies (K:=specConstants) ps "spec.policies" = Ok (Some [e; w])) →
            (∀ r, validatePolicies (K:=specConstants) ps "spec.policies" = Ok (Some r) →
                  length r = 1%nat) →
            validatePolicies (K:=specConstants) ps "spec.policies" = Ok (Some [e])) as Hpick.
  { intros e w ps [H|H] Hlen; [done|]. specialize (Hlen _ H). done. }
  split_and!.
  - apply Hpick.
    + destruct (event_before_action (K:=specConstants) "spec.policies" internal
                  [] "OutOfSync" [] entry entry Hi eq_refl eq_refl eq_refl)
        as [Hevent _].
      destruct (Hevent (or_intror eq_refl)) as (_ & _ & _ & _ & Hlist).
      apply (Hlist [] [] Hreach).
    + intros r Hr. vm_compute in Hr. by simplify_eq.
  - apply Hpick.
    + destruct (event_before_action (K:=specConstants) "spec.policies" second
                  ["PodFailed"] "Bogus" [] entry (recordEvents ["PodFailed"] entry)
                  Hs eq_refl eq_refl eq_refl)
        as [Hevent _].
      destruct (Hevent (or_introl eq_refl)) as (_ & _ & _ & _ & Hlist).
      apply (Hlist [] [internal] Hreach).
    + intros r Hr. vm_compute in Hr. by simplify_eq.
  - apply Hpick.
    + destruct (event_before_action (K:=specConstants) "spec.policies" action
                  [] "PodFailed" [] entry entry Ha eq_refl eq_refl eq_refl)
        as (_ & Haction & _).
      destruct (Haction eq_refl (or_intror eq_refl)) as (_ & _ & _ & _ & Hlist).
      apply (Hlist [] [] Hreach).
    + intros r Hr. vm_compute in Hr. by simplify_eq.
  - apply (event_before_action (K:=specConstants) "spec.policies" internal
             [] "OutOfSync" [] entry entry Hi); done.
  - apply (event_before_action (K:=specConstants) "spec.policies" internal
             [] "OutOfSync" [] entry entry Hi); done.
Defined.

(** The statement of C6 for every cited event fails: in a policy whose
    action is not allowed, an event that is no key of the allow-list and
    stands after an allowed event is never looked at; the violation is
    "invalid policy action" and no error mentions the event. *)
Lemma event_before_action_counterexample :
  ¬ (∀ (K : batchv1alpha1.Constants) fldPath policy event,
       hasEventSpec policy → ExitCode policy = None →
       event ∈ getEventList policy →
       policyEventMap !! event = None ∨ policyEventMap !! event = Some false →
       ∃ errs, validatePolicies [policy] fldPath = Ok (Some errs) ∧
               ∃ e, e ∈ errs ∧ mentions "invalid policy event" e = true).
Proof.
  intros Hclaim.
  pose (policy := {| Action := "SyncJob"; Event := ""; Events := ["PodFailed"; "Bogus"];
                     ExitCode := None |}).
  destruct (Hclaim specConstants "spec.policies" policy "Bogus")
    as (errs & Hv & e & He & Hm).
  - by right.
  - done.
  - right. left.
  - by left.
  - assert (errs = [field_Invalid "spec.policies" "SyncJob" "invalid policy action"])
      as -> by (vm_compute in Hv; congruence).
    apply list_elem_of_singleton in He as ->. vm_compute in Hm. discriminate.
Qed.

(** ** Volumes *)

Section io.

Context {PersistentVolumeClaimSpec : Type}.

Variable validate : string → bool → list string.

Implicit Types (volume : VolumeSpec PersistentVolumeClaimSpec)
  (volumes pre suf : list (VolumeSpec PersistentVolumeClaimSpec))
  (m : gmap string bool) (seen : list string).

(** The loop returns at the first entry whose checks fail. *)
Lemma validateIO_range_cons volume volumes m :
  validateIO_range validate (volume :: volumes) m =
    match validateIO_range validate [volume] m with
    | Some e => Some e
    | None => validateIO_range validate volumes (<[MountPath volume := true]> m)
    end.
Proof.
  simpl. repeat (destruct (_ : bool); try done).
Qed.

Lemma commaOk_found m k : (commaOk m k).2 = bool_decide (is_Some (m !! k)).
Proof.
  unfold commaOk. destruct (m !! k).
  - by rewrite bool_decide_true by eauto.
  - by rewrite bool_decide_false by (by intros []).
Qed.

(** The checks of one entry, one after the other. *)
Lemma validateIO_range_one volume m :
  validateIO_range validate [volume] m =
    if decide (MountPath volume = "") then
      Some (fmt_Errorf " mountPath is required;")
    else if decide (is_Some (m !! MountPath volume)) then
      Some (fmt_Errorf (" duplicated mountPath: " +:+ MountPath volume +:+ ";"))
    else if decide (VolumeClaim volume = None ∧ VolumeClaimName volume = "") then
      Some (fmt_Errorf " either VolumeClaim or VolumeClaimName must be specified;")
    else if decide (VolumeClaimName volume = "") then None
    else if decide (is_Some (VolumeClaim volume)) then
      Some (fmt_Errorf
        ("confilct: If you want to use an existing PVC, just specify VolumeClaimName." +:+
         "If you want to create a new PVC, you do not need to specify VolumeClaimName"))
    else if decide (validate (VolumeClaimName volume) false = []) then None
    else Some (fmt_Errorf ("invalid VolumeClaimName " +:+ VolumeClaimName volume +:+
                           " : " +:+ fmt_strings (validate (VolumeClaimName volume) false))).
Proof.
  cbn [validateIO_range]. rewrite commaOk_found.
  destruct (decide (MountPath volume = "")) as [Hp|Hp].
  { apply nonempty_false in Hp. by rewrite Hp. }
  apply nonempty_true in Hp. rewrite Hp. cbn [negb].
  destruct (decide (is_Some (m !! MountPath volume))) as [Hs|Hs].
  { by rewrite bool_decide_true. }
  rewrite bool_decide_false by done.
  destruct (decide (VolumeClaimName volume = "")) as [Hn|Hn].
  - apply nonempty_false in Hn as Hn'. rewrite Hn'.
    destruct (VolumeClaim volume) as [c|]; cbn [isNil negb andb].
    + rewrite decide_False by (by intros []). done.
    + by rewrite decide_True.
  - apply nonempty_true in Hn as Hn'. rewrite Hn'. cbn [negb]. rewrite andb_false_r.
    rewrite decide_False by (by intros []).
    destruct (VolumeClaim volume) as [c|]; cbn [isNil negb].
    + by rewrite decide_True by eauto.
    + rewrite decide_False by (by intros []).
      destruct (validate (VolumeClaimName volume) false) as [|msg msgs] eqn:Hv;
        cbn [lenZero negb].
      * by rewrite decide_True.
      * by rewrite decide_False.
Qed.

(** An entry passes its checks exactly when it is valid. *)
Lemma validateIO_range_one_None volume m seen :
  (∀ x, is_Some (m !! x) ↔ x ∈ seen) →
  validateIO_range validate [volume] m = None ↔ validVolume validate seen volume.
Proof.
  intros Hkeys. rewrite validateIO_range_one.
  unfold validVolume, exactlyOneClaim. rewrite <- Hkeys.
  destruct (decide (MountPath volume = "")) as [Hp|Hp].
  { split; [done|]. by intros (? & _). }
  destruct (decide (is_Some (m !! MountPath volume))) as [Hs|Hs].
  { split; [done|]. by intros (_ & ? & _). }
  destruct (decide (VolumeClaim volume = None ∧ VolumeClaimName volume = ""))
    as [[Hc Hn]|Hcn].
  { split; [done|]. intros (_ & _ & [[Hsome _]|[_ Hn']] & _); [|done].
    rewrite Hc in Hsome. by destruct Hsome. }
  destruct (decide (VolumeClaimName volume = "")) as [Hn|Hn].
  { split; [intros _|done]. split_and!; [done|done| |done]. left. split; [|done].
    destruct (VolumeClaim volume); [eauto|]. exfalso. by apply Hcn. }
  destruct (decide (is_Some (VolumeClaim volume))) as [Hc|Hc].
  { split; [done|]. intros (_ & _ & [[_ Hn']|[Hc' _]] & _); [done|].
    rewrite Hc' in Hc. by destruct Hc. }
  destruct (decide (validate (VolumeClaimName volume) false = [])) as [Hv|Hv].
  { split; [intros _|done]. split_and!; [done|done| |done]. right. split; [|done].
    destruct (VolumeClaim volume); [|done]. exfalso. apply Hc. eauto. }
  split; [done|]. intros (_ & _ & _ & Hval). exfalso. by apply Hv, Hval.
Qed.

Lemma validateIO_range_one_error volume m e :
  validateIO_range validate [volume] m = Some e → ∃ msg, e = fmt_Errorf msg.
Proof.
  rewrite validateIO_range_one. repeat case_decide; intros ?; simplify_eq; eauto.
Qed.

Lemma seenAfter_keys pre m seen :
  (∀ x, is_Some (m !! x) ↔ x ∈ seen) →
  ∀ x, is_Some (seenAfter pre m !! x) ↔ x ∈ seen ++ (MountPath <$> pre).
Proof.
  revert m seen. induction pre as [|v pre IH]; intros m seen Hkeys x.
  - simpl. by rewrite app_nil_r.
  - simpl. rewrite (IH _ (seen ++ [MountPath v])).
    + by rewrite <- app_assoc.
    + intros y. rewrite lookup_insert_is_Some, elem_of_app, list_elem_of_singleton, Hkeys.
      destruct (decide (MountPath v = y)); naive_solver.
Qed.

Lemma validateIO_range_app pre suf m :
  validateIO_range validate (pre ++ suf) m =
    match validateIO_range validate pre m with
    | Some e => Some e
    | None => validateIO_range validate suf (seenAfter pre m)
    end.
Proof.
  revert m. induction pre as [|v pre IH]; intros m; [done|].
  rewrite <- app_comm_cons, validateIO_range_cons, (validateIO_range_cons v pre).
  destruct (validateIO_range validate [v] m); [done|]. apply IH.
Qed.

Lemma validateIO_range_None volumes m seen :
  (∀ x, is_Some (m !! x) ↔ x ∈ seen) →
  validateIO_range validate volumes m = None ↔
  ∀ i volume, volumes !! i = Some volume →
    validVolume validate (seen ++ (MountPath <$> take i volumes)) volume.
Proof.
  revert m seen. induction volumes as [|v vs IH]; intros m seen Hkeys.
  - simpl. split; [|done]. by intros _ i volume Hi.
  - rewrite validateIO_range_cons. split.
    + destruct (validateIO_range validate [v] m) eqn:Hone; [done|].
      intros Hrest [|i] volume Hi; simpl in Hi.
      * simplify_eq. simpl. rewrite app_nil_r.
        by apply (validateIO_range_one_None _ m).
      * simpl. rewrite (IH _ (seen ++ [MountPath v])) in Hrest.
        -- specialize (Hrest i volume Hi). by rewrite <- app_assoc in Hrest.
        -- apply (seenAfter_keys [v] m seen Hkeys).
    + intros Hall.
      assert (validateIO_range validate [v] m = None) as ->.
      { apply (validateIO_range_one_None _ m seen Hkeys).
        specialize (Hall 0%nat v eq_refl). simpl in Hall. by rewrite app_nil_r in Hall. }
      apply (IH _ (seen ++ [MountPath v])).
      * apply (seenAfter_keys [v] m seen Hkeys).
      * intros i volume Hi. rewrite <- app_assoc. apply (Hall (S i) volume Hi).
Qed.

Lemma empty_keys : ∀ x, is_Some ((∅ : gmap string bool) !! x) ↔ x ∈ @nil string.
Proof.
  intros x. rewrite lookup_empty, elem_of_nil. split; [by intros []|done].
Qed.

Lemma validateIO_None volumes : validateIO validate volumes = None ↔ validVolumes validate volumes.
Proof. unfold validateIO. by rewrite (validateIO_range_None _ _ [] empty_keys). Qed.

(** After valid entries, the result is that of the rest of the list
    with the mount paths of these entries recorded. *)
Lemma validateIO_after_valid pre suf :
  validVolumes validate pre →
  validateIO validate (pre ++ suf) = validateIO_range validate suf (seenAfter pre ∅) ∧
  ∀ x, is_Some (seenAfter pre ∅ !! x) ↔ x ∈ MountPath <$> pre.
Proof.
  intros Hpre. split.
  - unfold validateIO. rewrite validateIO_range_app.
    apply validateIO_None in Hpre. unfold validateIO in Hpre. by rewrite Hpre.
  - intros x. by rewrite (seenAfter_keys pre ∅ [] empty_keys).
Qed.

End io.

(** C8: [validateIO] returns nil exactly when every entry of the list is
    valid, and otherwise the violation of the first entry that is not, as
    one plain error: nothing after that entry is looked at; the first
    check of an entry is that of the mount path, so that an empty mount
    path gives " mountPath is required;" whatever the other fields are,
    and the next one gives " duplicated mountPath: <path>;" for a mount
    path that an earlier entry of the list has. *)
Theorem validateIO_first_violation {PersistentVolumeClaimSpec : Type}
    (validate : string → bool → list string)
    (volumes : list (VolumeSpec PersistentVolumeClaimSpec)) :
  (validateIO validate volumes = None ↔ validVolumes validate volumes) ∧
  (∀ e, validateIO validate volumes = Some e → ∃ msg, e = fmt_Errorf msg) ∧
  (∀ pre volume suf,
     volumes = pre ++ volume :: suf →
     validVolumes validate pre →
     ¬ validVolume validate (MountPath <$> pre) volume →
     ∃ e, validateIO validate volumes = Some e ∧
          (∀ suf', validateIO validate (pre ++ volume :: suf') = Some e) ∧
          (MountPath volume = "" → e = fmt_Errorf " mountPath is required;") ∧
          (MountPath volume ≠ "" → MountPath volume ∈ MountPath <$> pre →
           e = fmt_Errorf (" duplicated mountPath: " +:+ MountPath volume +:+ ";") ∧
           occursIn ("duplicated mountPath: " +:+ MountPath volume)
                    (" duplicated mountPath: " +:+ MountPath volume +:+ ";"))) ∧
  contains "mountPath is required" " mountPath is required;" = true.
Proof.
  split_and!.
  - apply validateIO_None.
  - intros e. unfold validateIO. generalize (∅ : gmap string bool).
    induction volumes as [|v vs IH]; intros m; [done|].
    rewrite validateIO_range_cons.
    destruct (validateIO_range validate [v] m) as [e'|] eqn:Hone.
    + intros ?; simplify_eq. by eapply validateIO_range_one_error.
    + apply IH.
  - intros pre volume suf -> Hpre Hbad.
    assert (∀ suf', validateIO validate (pre ++ volume :: suf') =
                    validateIO_range validate [volume] (seenAfter pre ∅)) as Hat.
    { intros suf'. destruct (validateIO_after_valid validate pre (volume :: suf') Hpre)
        as [-> Hkeys].
      rewrite validateIO_range_cons.
      destruct (validateIO_range validate [volume] (seenAfter pre ∅)) eqn:Hone; [done|].
      apply (validateIO_range_one_None _ _ _ (MountPath <$> pre)) in Hone; [done|].
      apply (validateIO_after_valid validate pre [] Hpre). }
    destruct (validateIO_after_valid validate pre [] Hpre) as [_ Hkeys].
    destruct (validateIO_range validate [volume] (seenAfter pre ∅)) as [e|] eqn:Hone.
    + exists e. split_and!.
      * by rewrite Hat.
      * intros suf'. by rewrite Hat.
      * intros Hempty. rewrite validateIO_range_one, decide_True in Hone by done. congruence.
      * intros Hne Hdup. split.
        -- rewrite validateIO_range_one, decide_False in Hone by done.
           rewrite decide_True in Hone by (by apply Hkeys). congruence.
        -- by exists " ", ";".
    + by apply (validateIO_range_one_None _ _ _ (MountPath <$> pre)) in Hone.
  - reflexivity.
Qed.

Lemma validateIO_first_violation_witness :
  let validate (name : string) (_ : bool) : list string := [] in
  let data := {| MountPath := "/data"; VolumeClaimName := "pvc"; VolumeClaim := @None unit |} in
  let again := {| MountPath := "/data"; VolumeClaimName := ""; VolumeClaim := @None unit |} in
  let empty := {| MountPath := ""; VolumeClaimName := ""; VolumeClaim := @None unit |} in
  (validVolumes validate [data] ∧ ¬ validVolume validate (MountPath <$> [data]) again ∧
   MountPath again ≠ "" ∧ MountPath again ∈ MountPath <$> [data]) ∧
  validateIO validate [data; again; empty] = Some (fmt_Errorf " duplicated mountPath: /data;") ∧
  validateIO validate [data] = None.
Proof.
  intros validate data again empty.
  assert (validVolumes validate [data]) as Hvalid.
  { intros [|[|i]] volume Hi; simpl in Hi; [|done..]. simplify_eq.
    split_and!; [done|apply not_elem_of_nil| |done]. by right. }
  assert (¬ validVolume validate (MountPath <$> [data]) again) as Hbad.
  { intros (_ & Hin & _). apply Hin. left. }
  assert (MountPath again ∈ MountPath <$> [data]) as Hin by left.
  split; [by split_and!|]. split.
  - destruct (validateIO_first_violation validate [data; again; empty])
      as (_ & _ & Hfirst & _).
    destruct (Hfirst [data] again [empty] eq_refl Hvalid Hbad) as (e & -> & _ & _ & Hdup).
    f_equal. by apply Hdup.
  - by apply (validateIO_first_violation validate [data]).
Defined.

(** C9: for an entry that comes after valid entries and has a mount path
    that is neither empty nor one of theirs, exactly one of the claim
    template and the claim name has to be set: [validateIO] returns
    " either VolumeClaim or VolumeClaimName must be specified;" when
    neither is set, the conflict error when both are set, and, when only
    the name is set and the check of persistent volume names complains
    about it, the error "invalid VolumeClaimName" with the name and the
    complaints; otherwise the entry passes. *)
Theorem volume_claim_rules {PersistentVolumeClaimSpec : Type}
    (validate : string → bool → list string)
    (pre : list (VolumeSpec PersistentVolumeClaimSpec))
    (volume : VolumeSpec PersistentVolumeClaimSpec)
    (suf : list (VolumeSpec PersistentVolumeClaimSpec)) :
  validVolumes validate pre →
  MountPath volume ≠ "" →
  MountPath volume ∉ MountPath <$> pre →
  (VolumeClaim volume = None → VolumeClaimName volume = "" →
   validateIO validate (pre ++ volume :: suf) =
     Some (fmt_Errorf " either VolumeClaim or VolumeClaimName must be specified;")) ∧
  (is_Some (VolumeClaim volume) → VolumeClaimName volume ≠ "" →
   validateIO validate (pre ++ volume :: suf) =
     Some (fmt_Errorf
       ("confilct: If you want to use an existing PVC, just specify VolumeClaimName." +:+
        "If you want to create a new PVC, you do not need to specify VolumeClaimName"))) ∧
  (VolumeClaim volume = None → VolumeClaimName volume ≠ "" →
   validate (VolumeClaimName volume) false ≠ [] →
   validateIO validate (pre ++ volume :: suf) =
     Some (fmt_Errorf ("invalid VolumeClaimName " +:+ VolumeClaimName volume +:+ " : " +:+
                       fmt_strings (validate (VolumeClaimName volume) false)))) ∧
  (validateIO validate (pre ++ [volume]) = None ↔
   exactlyOneClaim volume ∧
   (VolumeClaimName volume ≠ "" → validate (VolumeClaimName volume) false = [])) ∧
  contains "either VolumeClaim or VolumeClaimName must be specified"
    " either VolumeClaim or VolumeClaimName must be specified;" = true.
Proof.
  intros Hpre Hpath Hfresh.
  destruct (validateIO_after_valid validate pre [] Hpre) as [_ Hkeys].
  assert (¬ is_Some (seenAfter pre ∅ !! MountPath volume)) as Hnew by (by rewrite Hkeys).
  assert (∀ suf' e, validateIO_range validate [volume] (seenAfter pre ∅) = Some e →
                    validateIO validate (pre ++ volume :: suf') = Some e) as Hat.
  { intros suf' e He.
    destruct (validateIO_after_valid validate pre (volume :: suf') Hpre) as [-> _].
    by rewrite validateIO_range_cons, He. }
  split_and!.
  - intros Hc Hn. apply Hat. rewrite validateIO_range_one.
    rewrite decide_False by done. rewrite decide_False by done. by rewrite decide_True.
  - intros Hc Hn. apply Hat. rewrite validateIO_range_one.
    rewrite decide_False by done. rewrite decide_False by done.
    rewrite decide_False by naive_solver. rewrite decide_False by done.
    by rewrite decide_True.
  - intros Hc Hn Hv. apply Hat. rewrite validateIO_range_one.
    rewrite decide_False by done. rewrite decide_False by done.
    rewrite decide_False by naive_solver. rewrite decide_False by done.
    rewrite decide_False by (rewrite Hc; by intros []). by rewrite decide_False.
  - destruct (validateIO_after_valid validate pre [volume] Hpre) as [-> _].
    rewrite (validateIO_range_one_None _ _ _ (MountPath <$> pre) Hkeys).
    unfold validVolume. naive_solver.
  - reflexivity.
Qed.

Lemma volume_claim_rules_witness :
  let validate (name : string) (_ : bool) : list string :=
    if decide (name = "Bad_Name") then ["must be a lowercase RFC 1123 subdomain"] else [] in
  let data := {| MountPath := "/data"; VolumeClaimName := "pvc"; VolumeClaim := @None unit |} in
  let neither := {| MountPath := "/a"; VolumeClaimName := ""; VolumeClaim := @None unit |} in
  let both := {| MountPath := "/b"; VolumeClaimName := "pvc"; VolumeClaim := Some () |} in
  let bad := {| MountPath := "/c"; VolumeClaimName := "Bad_Name"; VolumeClaim := @None unit |} in
  let template := {| MountPath := "/d"; VolumeClaimName := ""; VolumeClaim := Some () |} in
  validVolumes validate [data] ∧
  validateIO validate [data; neither] =
    Some (fmt_Errorf " either VolumeClaim or VolumeClaimName must be specified;") ∧
  validateIO validate [data; both] =
    Some (fmt_Errorf
      ("confilct: If you want to use an existing PVC, just specify VolumeClaimName." +:+
       "If you want to create a new PVC, you do not need to specify VolumeClaimName")) ∧
  validateIO validate [data; bad] =
    Some (fmt_Errorf
            "invalid VolumeClaimName Bad_Name : [must be a lowercase RFC 1123 subdomain]") ∧
  validateIO validate [data; template] = None.
Proof.
  intros validate data neither both bad template.
  assert (validVolumes validate [data]) as Hvalid.
  { intros [|[|i]] volume Hi; simpl in Hi; [|done..]. simplify_eq.
    split_and!; [done|apply not_elem_of_nil| |done]. by right. }
  assert (∀ path : string, path ≠ "/data" → path ∉ MountPath <$> [data]) as Hfresh.
  { intros path Hne Hin. apply list_elem_of_singleton in Hin. done. }
  split; [done|]. split_and!.
  - apply (volume_claim_rules validate [data] neither [] Hvalid); [done|by apply Hfresh|done..].
  - apply (volume_claim_rules validate [data] both [] Hvalid); [done|by apply Hfresh| |done].
    by eexists.
  - apply (volume_claim_rules validate [data] bad [] Hvalid); [done|by apply Hfresh|done..].
  - apply (volume_claim_rules validate [data] template [] Hvalid); [done|by apply Hfresh|].
    split; [|done]. left. split; [by eexists|done].
Defined.

(** C1: [validatePolicies] returns nil on the empty list and on every
    well-formed list, but not only on those: the branch of a policy with
    an exit code never reads the action, so that a policy with exit code
    3 and the internal-only action "SyncJob" is accepted although the
    list is not well-formed, while the branch of a policy with an event
    rejects the same action. *)
Theorem exitCode_policy_action_unchecked :
  let byCode := {| Action := "SyncJob"; Event := ""; Events := []; ExitCode := Some 3 |} in
  let byEvent := {| Action := "SyncJob"; Event := "PodFailed"; Events := [];
                    ExitCode := None |} in
  validatePolicies (K:=specConstants) [byCode] "spec.policies" = Ok None ∧
  policyActionMap (K:=specConstants) !! Action byCode = Some false ∧
  ¬ wellFormed (K:=specConstants) [byCode] ∧
  validatePolicies (K:=specConstants) [byEvent] "spec.policies" =
    Ok (Some [field_Invalid "spec.policies" "SyncJob" "invalid policy action"]) ∧
  (∀ (K : batchv1alpha1.Constants) fldPath, validatePolicies [] fldPath = Ok None) ∧
  (∀ (K : batchv1alpha1.Constants) policies fldPath,
     validatePolicies policies fldPath = Ok None ↔ wellFormedUpTo hasEventSpec policies).
Proof.
  intros byCode byEvent. split_and!.
  - reflexivity.
  - reflexivity.
  - intros [Hall _]. destruct (Hall byCode) as (_ & _ & Hact); [left|].
    specialize (Hact I). vm_compute in Hact. discriminate.
  - reflexivity.
  - done.
  - intros K policies fldPath. apply validatePolicies_nil_iff.
Qed.

(** * Further properties *)

(** ** [removeDuplicates] *)

Lemma keepFirst_NoDup (l : list string) : NoDup l → keepFirst l = l.
Proof.
  induction l as [|a l IH]; intros Hnd; [done|].
  apply NoDup_cons in Hnd as [Ha Hnd]. simpl. rewrite IH by done. f_equal.
  apply filter_all. intros x Hx ->. done.
Qed.

(** X1: [removeDuplicates] returns a list without duplicates unchanged
    and only such a list, so that applying it twice is applying it once;
    its result is never longer than its argument and is empty only for
    the empty list. *)
Theorem removeDuplicates_fixed (EventList : list batchv1alpha1.Event) :
  removeDuplicates (removeDuplicates EventList) = removeDuplicates EventList ∧
  (removeDuplicates EventList = EventList ↔ NoDup EventList) ∧
  (length (removeDuplicates EventList) ≤ length EventList)%nat ∧
  (removeDuplicates EventList = [] ↔ EventList = []).
Proof.
  rewrite !removeDuplicates_keepFirst. split_and!.
  - apply keepFirst_NoDup, NoDup_keepFirst.
  - split; [|apply keepFirst_NoDup]. intros <-. apply NoDup_keepFirst.
  - apply sublist_length, sublist_keepFirst.
  - by destruct EventList.
Qed.

(** X2: [removeDuplicates] of a concatenation is [removeDuplicates] of
    the first list followed by the entries of [removeDuplicates] of the
    second that the first does not have; hence [getEventList] returns the
    de-duplicated [Events], followed by [Event] exactly when [Event] is
    not empty and not among [Events]. *)
Theorem removeDuplicates_app (l1 l2 : list batchv1alpha1.Event) (policy : LifecyclePolicy) :
  removeDuplicates (l1 ++ l2) =
    removeDuplicates l1 ++ filter (λ e, e ∉ l1) (removeDuplicates l2) ∧
  getEventList policy =
    removeDuplicates (Events policy) ++
    (if decide (Event policy ≠ "" ∧ Event policy ∉ Events policy) then [Event policy]
     else []).
Proof.
  split.
  - rewrite !removeDuplicates_keepFirst. apply filter_keepFirst_app.
  - rewrite getEventList_merge, removeDuplicates_keepFirst. unfold citedEvents.
    rewrite filter_keepFirst_app. f_equal.
    destruct (decide (Event policy = "")) as [He|He].
    + rewrite decide_False by (by intros [? _]). done.
    + simpl. destruct (decide (Event policy ∈ Events policy)) as [Hin|Hin].
      * rewrite filter_cons_False by (by intros Hn; apply Hn).
        rewrite decide_False by (by intros [_ ?]). done.
      * rewrite filter_cons_True by done. by rewrite decide_True.
Qed.

(** ** More on [validatePolicies] *)

Section verdict.

Context `{K : batchv1alpha1.Constants}.

Implicit Types (p : LifecyclePolicy) (ps pre suf : list LifecyclePolicy) (s : locals).

(** The result is nil or wraps at least one error. *)
Lemma validatePolicies_cases ps fldPath :
  validatePolicies ps fldPath = Ok None ∨
  ∃ errs, validatePolicies ps fldPath = Ok (Some errs) ∧ errs ≠ [].
Proof.
  destruct (rangePolicies_ends fldPath ps entry)
    as [(s & Hrun & Herr)|(s & e & Hrun & Herr)];
    rewrite (validatePolicies_unfold _ _ _ _ Hrun).
  - destruct (wildcardCheck_cases s) as [-> | ->].
    + rewrite Herr. by left.
    + right. destruct (multierror_Append_Some (err s)
        (fmt_Errorf "if there's * here, no other policy should be here")) as (errs & -> & ?).
      eauto.
  - right. destruct (wildcardCheck_cases s) as [-> | ->].
    + rewrite Herr. destruct (multierror_Append_Some (err entry) e) as (errs & -> & ?). eauto.
    + destruct (multierror_Append_Some (err s)
        (fmt_Errorf "if there's * here, no other policy should be here")) as (errs & -> & ?).
      eauto.
Qed.


End verdict.

(** X3: [validatePolicies] returns nil exactly when every policy sets
    either an event specification or an exit code and not both, every
    cited event is a key of [policyEventMap] with flag true, the action
    of every policy with an event specification is a key of
    [policyActionMap] with flag true, no event is cited by two policies,
    the exit codes are non-zero and pairwise distinct, and the wildcard is
    not cited beside another event; the field path has no part in it. *)
Theorem validatePolicies_nil_exactly `{K : batchv1alpha1.Constants}
    (policies : list LifecyclePolicy) (fldPath : string) :
  (validatePolicies policies fldPath = Ok None ↔
   (∀ p, p ∈ policies →
      exactlyOne p ∧
      (∀ e, e ∈ citedEvents p → policyEventMap !! e = Some true) ∧
      (hasEventSpec p → policyActionMap !! Action p = Some true)) ∧
   noSharedEvent policies ∧
   exitCodesValid policies ∧
   wildcardAlone policies) ∧
  (∀ fldPath', validatePolicies policies fldPath = Ok None ↔
               validatePolicies policies fldPath' = Ok None).
Proof.
  split.
  - rewrite validatePolicies_nil_iff. reflexivity.
  - intros fldPath'. by rewrite !validatePolicies_nil_iff.
Qed.



(** X5: a policy with neither an event specification nor an exit code
    makes [validatePolicies] return a non-nil error whatever the list
    around it, and no policy after it is looked at; when every policy
    before it passes the checks, the first error returned is "either event
    and exitCode should be specified". *)
Theorem neither_stops `{K : batchv1alpha1.Constants}
    (fldPath : string) (pre : list LifecyclePolicy) (p : LifecyclePolicy)
    (suf : list LifecyclePolicy) :
  ¬ hasEventSpec p → ExitCode p = None →
  (∃ errs, validatePolicies (pre ++ p :: suf) fldPath = Ok (Some errs) ∧ errs ≠ []) ∧
  validatePolicies (pre ++ p :: suf) fldPath = validatePolicies (pre ++ [p]) fldPath ∧
  (accepts ∅ ∅ pre →
   ∃ rest, validatePolicies (pre ++ p :: suf) fldPath =
             Ok (Some (fmt_Errorf "either event and exitCode should be specified" :: rest))).
Proof.
  intros Hno Hc.
  assert (∀ s1, policyBody fldPath p s1 =
                Ok (appendErr (fmt_Errorf "either event and exitCode should be specified") s1,
                    Break)) as Hbody.
  { intros s1. rewrite policyBody_unfold, decide_False by done. by rewrite Hc. }
  split_and!.
  - apply (validatePolicies_rejects fldPath _ p).
    + apply elem_of_app. right. left.
    + intros evs codes [(? & _)|(_ & c & ? & _)]; [done|congruence].
  - unfold validatePolicies. rewrite rangePolicies_stop; [done|].
    intros s1. eexists. apply Hbody.
  - intros Hacc. destruct (rangePolicies_accepts fldPath pre entry Hacc) as [s Hrun].
    eapply validatePolicies_break_at; [done|]. apply Hbody.
Qed.

Lemma neither_stops_witness :
  let ok := {| Action := "AbortJob"; Event := ""; Events := []; ExitCode := Some 3 |} in
  let none := {| Action := "AbortJob"; Event := ""; Events := []; ExitCode := None |} in
  (¬ hasEventSpec none ∧ accepts (K:=specConstants) ∅ ∅ [ok]) ∧
  ∃ rest, validatePolicies (K:=specConstants) [ok; none; ok] "spec.policies" =
            Ok (Some (fmt_Errorf "either event and exitCode should be specified" :: rest)).
Proof.
  intros ok none.
  assert (∀ q, Event q = "" → Events q = [] → ¬ hasEventSpec q) as Hno
    by (intros q ? ? [?|?]; done).
  assert (accepts (K:=specConstants) ∅ ∅ [ok]) as Hacc.
  { split; [|done]. right. split; [by apply Hno|]. exists 3.
    split_and!; [done..|apply not_elem_of_empty]. }
  split; [split; [by apply Hno|done]|].
  by apply (neither_stops (K:=specConstants) "spec.policies" [ok] none [ok]);
    [apply Hno| |].
Defined.

(** X6: a list of policies that cites the wildcard event and another
    event, in the same policy or in different ones, is rejected; so in a
    list that is accepted and cites the wildcard, the wildcard is the only
    event cited. *)
Theorem wildcard_excludes_others `{K : batchv1alpha1.Constants}
    (policies : list LifecyclePolicy) (fldPath : string) (e : batchv1alpha1.Event) :
  cited policies batchv1alpha1.AnyEvent → cited policies e →
  (e ≠ batchv1alpha1.AnyEvent →
   ∃ errs, validatePolicies policies fldPath = Ok (Some errs) ∧ errs ≠ []) ∧
  (validatePolicies policies fldPath = Ok None → e = batchv1alpha1.AnyEvent).
Proof.
  intros Hany He.
  assert (validatePolicies policies fldPath = Ok None → e = batchv1alpha1.AnyEvent) as Honly.
  { intros (_ & _ & _ & Hw)%validatePolicies_nil_iff.
    destruct (decide (e = batchv1alpha1.AnyEvent)) as [|Hne]; [done|].
    destruct Hw. split; [done|]. by exists e. }
  split; [|done]. intros Hne.
  destruct (validatePolicies_cases policies fldPath) as [Hnil|?]; [|done].
  by destruct (Hne (Honly Hnil)).
Qed.

Lemma wildcard_excludes_others_witness :
  let any := {| Action := "AbortJob"; Event := "Any"; Events := []; ExitCode := None |} in
  let other := {| Action := "AbortJob"; Event := "PodEvicted"; Events := [];
                  ExitCode := None |} in
  (cited [other; any] "Any" ∧ cited [other; any] "PodEvicted" ∧ "PodEvicted" ≠ "Any") ∧
  ∃ errs, validatePolicies (K:=specConstants) [other; any] "spec.policies" = Ok (Some errs) ∧
          errs ≠ [].
Proof.
  intros any other.
  assert (cited [other; any] "Any") as Hany by (exists any; split; [right; left|left]).
  assert (cited [other; any] "PodEvicted") as He by (exists other; split; left).
  split; [by split_and!|].
  by apply (wildcard_excludes_others (K:=specConstants) [other; any] "spec.policies"
              "PodEvicted" Hany He).
Defined.

(** ** The verdict does not depend on the order of the policies *)

Lemma noSharedEvent_Permutation ps ps' : ps ≡ₚ ps' → noSharedEvent ps → noSharedEvent ps'.
Proof.
  induction 1 as [|x l l' Hperm IH|x y l|l l' l'' _ IH1 _ IH2].
  - done.
  - rewrite !noSharedEvent_cons. intros [Hhd Htl]. split; [|by apply IH].
    intros q e Hq. apply Hhd. by rewrite Hperm.
  - rewrite !noSharedEvent_cons. intros (Hy & Hx & Htl). split_and!; [| |done].
    + intros q e [->|Hq]%elem_of_cons He; [|by apply Hx].
      intros Hey. by apply (Hy x e); [left|..].
    + intros q e Hq. apply Hy. by right.
  - intros ?. by apply IH2, IH1.
Qed.

Lemma exitCodesValid_Permutation ps ps' : ps ≡ₚ ps' → exitCodesValid ps → exitCodesValid ps'.
Proof.
  induction 1 as [|x l l' Hperm IH|x y l|l l' l'' _ IH1 _ IH2].
  - done.
  - rewrite !exitCodesValid_cons. intros (Hnz & Hhd & Htl). split_and!; [done| |by apply IH].
    intros q c Hq. apply Hhd. by rewrite Hperm.
  - rewrite !exitCodesValid_cons. intros (Hy0 & Hy & Hx0 & Hx & Htl).
    split_and!; [done| |done| |done].
    + intros q c [->|Hq]%elem_of_cons Hc; [|by apply Hx].
      intros Hyc. by apply (Hy x c); [left|..].
    + intros q c Hq. apply Hy. by right.
  - intros ?. by apply IH2, IH1.
Qed.

Lemma cited_Permutation ps ps' e : ps ≡ₚ ps' → cited ps e → cited ps' e.
Proof. intros Hperm (p & Hp & He). exists p. split; [by rewrite <- Hperm|done]. Qed.

Lemma cited_app_l pre suf e : cited pre e → cited (pre ++ suf) e.
Proof. intros (p & Hp & He). exists p. split; [|done]. apply elem_of_app. by left. Qed.

Section order.

Context `{K : batchv1alpha1.Constants}.

Lemma wellFormedUpTo_Permutation checked ps ps' :
  ps ≡ₚ ps' → wellFormedUpTo checked ps → wellFormedUpTo checked ps'.
Proof.
  intros Hperm (Hall & Hns & Hcv & Hw). split_and!.
  - intros p Hp. apply Hall. by rewrite Hperm.
  - by eapply noSharedEvent_Permutation.
  - by eapply exitCodesValid_Permutation.
  - intros [Hany (e & Hne & He)]. apply Hw. symmetry in Hperm.
    split; [by eapply cited_Permutation|]. exists e. split; [done|].
    by eapply cited_Permutation.
Qed.

Lemma validatePolicies_nil_prefix pre suf fldPath :
  validatePolicies (pre ++ suf) fldPath = Ok None → validatePolicies pre fldPath = Ok None.
Proof.
  rewrite !validatePolicies_nil_accepts. intros [Hacc Hw]. split; [by eapply accepts_app|].
  intros [Hany (e & Hne & He)]. apply Hw. split; [by apply cited_app_l|].
  exists e. split; [done|by apply cited_app_l].
Qed.

End order.

(** X7: whether [validatePolicies] returns nil does not depend on the
    order of the policies (which error is reported does), and a list made
    of some of the policies of an accepted list is accepted. *)
Theorem verdict_order_independent `{K : batchv1alpha1.Constants}
    (policies policies' : list LifecyclePolicy) (fldPath : string) :
  (policies ≡ₚ policies' →
   (validatePolicies policies fldPath = Ok None ↔
    validatePolicies policies' fldPath = Ok None)) ∧
  (policies' ⊆+ policies →
   validatePolicies policies fldPath = Ok None →
   validatePolicies policies' fldPath = Ok None).
Proof.
  assert (∀ ps ps', ps ≡ₚ ps' → validatePolicies ps fldPath = Ok None →
                    validatePolicies ps' fldPath = Ok None) as Hperm.
  { intros ps ps' Hp. rewrite !validatePolicies_nil_iff.
    by apply wellFormedUpTo_Permutation. }
  split.
  - intros Hp. split; apply Hperm; [done|by symmetry].
  - intros [rest Hsub]%submseteq_Permutation Hnil.
    apply (validatePolicies_nil_prefix policies' rest). by apply (Hperm policies).
Qed.

Lemma verdict_order_independent_witness :
  let byEvent := {| Action := "AbortJob"; Event := "PodFailed"; Events := [];
                    ExitCode := None |} in
  let byCode := {| Action := "RestartJob"; Event := ""; Events := []; ExitCode := Some 3 |} in
  ([byEvent; byCode] ≡ₚ [byCode; byEvent] ∧ [byCode] ⊆+ [byEvent; byCode] ∧
   validatePolicies (K:=specConstants) [byEvent; byCode] "spec.policies" = Ok None) ∧
  validatePolicies (K:=specConstants) [byCode; byEvent] "spec.policies" = Ok None ∧
  validatePolicies (K:=specConstants) [byCode] "spec.policies" = Ok None.
Proof.
  intros byEvent byCode.
  assert ([byEvent; byCode] ≡ₚ [byCode; byEvent]) as Hperm by apply Permutation_swap.
  assert ([byCode] ⊆+ [byEvent; byCode]) as Hsub by (apply submseteq_cons; done).
  assert (validatePolicies (K:=specConstants) [byEvent; byCode] "spec.policies" = Ok None)
    as Hnil by (by vm_compute).
  split; [done|]. split.
  - destruct (verdict_order_independent (K:=specConstants) [byEvent; byCode]
                [byCode; byEvent] "spec.policies") as [Hiff _].
    by apply (Hiff Hperm).
  - destruct (verdict_order_independent (K:=specConstants) [byEvent; byCode]
                [byCode] "spec.policies") as [_ Hsome].
    by apply Hsome.
Defined.

(** ** More on [validateIO] *)

Section io_verdict.

Context {PersistentVolumeClaimSpec : Type}.

Variable validate : string → bool → list string.

Implicit Types (volume : VolumeSpec PersistentVolumeClaimSpec)
  (volumes : list (VolumeSpec PersistentVolumeClaimSpec)) (seen : list string).

Lemma validVolume_volumeOK seen volume :
  validVolume validate seen volume ↔ volumeOK validate volume ∧ MountPath volume ∉ seen.
Proof. unfold validVolume, volumeOK. tauto. Qed.

Lemma validVolumes_from seen volumes :
  (∀ i volume, volumes !! i = Some volume →
     validVolume validate (seen ++ (MountPath <$> take i volumes)) volume) ↔
  (∀ volume, volume ∈ volumes → volumeOK validate volume ∧ MountPath volume ∉ seen) ∧
  NoDup (MountPath <$> volumes).
Proof.
  revert seen. induction volumes as [|a vs IH]; intros seen.
  - split.
    + intros _. split; [|constructor]. intros v Hv. by apply elem_of_nil in Hv.
    + by intros _ i v Hi.
  - split.
    + intros Hall.
      assert (volumeOK validate a ∧ MountPath a ∉ seen) as Ha.
      { apply validVolume_volumeOK. specialize (Hall 0%nat a eq_refl).
        simpl in Hall. by rewrite app_nil_r in Hall. }
      destruct (proj1 (IH (seen ++ [MountPath a]))) as [Hvs Hnd].
      { intros i v Hi. rewrite <- app_assoc. apply (Hall (S i) v Hi). }
      split.
      * intros v [->|Hv]%elem_of_cons; [done|].
        destruct (Hvs v Hv) as [? Hnin]. split; [done|].
        intros Hin. apply Hnin, elem_of_app. by left.
      * rewrite fmap_cons. apply NoDup_cons. split; [|done].
        intros (v & Heq & Hv)%list_elem_of_fmap.
        destruct (Hvs v Hv) as [_ Hnin]. apply Hnin, elem_of_app. right.
        rewrite Heq. left.
    + intros [Hall Hnd]. rewrite fmap_cons in Hnd. apply NoDup_cons in Hnd as [Ha Hnd].
      intros [|i] v Hi; simpl in Hi.
      * simplify_eq. simpl. rewrite app_nil_r. apply validVolume_volumeOK, Hall. left.
      * simpl. rewrite cons_middle, app_assoc. revert i v Hi.
        apply IH. split; [|done].
        intros v Hv. destruct (Hall v) as [? Hnin]; [by right|]. split; [done|].
        intros [Hin|Hin]%elem_of_app; [done|].
        apply list_elem_of_singleton in Hin. apply Ha. rewrite <- Hin.
        apply list_elem_of_fmap. by exists v.
Qed.

Lemma validateIO_None_iff volumes :
  validateIO validate volumes = None ↔
  NoDup (MountPath <$> volumes) ∧ ∀ volume, volume ∈ volumes → volumeOK validate volume.
Proof.
  rewrite validateIO_None. unfold validVolumes.
  etrans; [apply (validVolumes_from [] volumes)|]. split.
  - intros [Hall Hnd]. split; [done|]. intros v Hv. by apply Hall.
  - intros [Hnd Hall]. split; [|done]. intros v Hv.
    split; [by apply Hall|apply not_elem_of_nil].
Qed.

End io_verdict.

(** X8: [validateIO] returns nil exactly when the mount paths of the
    list are pairwise distinct and every entry has a non-empty mount
    path, exactly one of the claim template and the claim name, and,
    when it has a name, a name about which the check of persistent volume
    names has no complaint. *)
Theorem validateIO_nil_exactly {PersistentVolumeClaimSpec : Type}
    (validate : string → bool → list string)
    (volumes : list (VolumeSpec PersistentVolumeClaimSpec)) :
  validateIO validate volumes = None ↔
  NoDup (MountPath <$> volumes) ∧
  ∀ volume, volume ∈ volumes →
    MountPath volume ≠ "" ∧
    ((is_Some (VolumeClaim volume) ∧ VolumeClaimName volume = "") ∨
     (VolumeClaim volume = None ∧ VolumeClaimName volume ≠ "")) ∧
    (VolumeClaimName volume ≠ "" → validate (VolumeClaimName volume) false = []).
Proof.
  rewrite validateIO_None_iff. split.
  - intros [Hnd Hall]. split; [done|]. intros volume Hv. by apply Hall.
  - intros [Hnd Hall]. split; [done|]. intros volume Hv. by apply Hall.
Qed.

(** X9: whether [validateIO] returns nil does not depend on the order of
    the entries, and a list made of some of the entries of an accepted
    list is accepted. *)
Theorem validateIO_order_independent {PersistentVolumeClaimSpec : Type}
    (validate : string → bool → list string)
    (volumes volumes' : list (VolumeSpec PersistentVolumeClaimSpec)) :
  (volumes ≡ₚ volumes' →
   (validateIO validate volumes = None ↔ validateIO validate volumes' = None)) ∧
  (volumes' ⊆+ volumes →
   validateIO validate volumes = None → validateIO validate volumes' = None).
Proof.
  assert (∀ vs vs' : list (VolumeSpec PersistentVolumeClaimSpec),
            vs' ⊆+ vs → validateIO validate vs = None → validateIO validate vs' = None) as Hsub.
  { intros vs vs' Hle. rewrite !validateIO_None_iff. intros [Hnd Hall]. split.
    - apply submseteq_Permutation in Hle as [k Hk].
      rewrite Hk, fmap_app in Hnd. by apply NoDup_app in Hnd as [? _].
    - intros volume Hv. apply Hall. by eapply elem_of_submseteq. }
  split; [|apply Hsub].
  intros Hperm. split; apply Hsub; by rewrite Hperm.
Qed.

Lemma validateIO_order_independent_witness :
  let validate (name : string) (_ : bool) : list string := [] in
  let data := {| MountPath := "/data"; VolumeClaimName := "pvc"; VolumeClaim := @None unit |} in
  let logs := {| MountPath := "/logs"; VolumeClaimName := ""; VolumeClaim := Some () |} in
  ([data; logs] ≡ₚ [logs; data] ∧ [logs] ⊆+ [data; logs] ∧
   validateIO validate [data; logs] = None) ∧
  validateIO validate [logs; data] = None ∧
  validateIO validate [logs] = None.
Proof.
  intros validate data logs.
  assert ([data; logs] ≡ₚ [logs; data]) as Hperm by apply Permutation_swap.
  assert ([logs] ⊆+ [data; logs]) as Hsub by (apply submseteq_cons; done).
  assert (validateIO validate [data; logs] = None) as Hnil by (by vm_compute).
  split; [done|]. split.
  - destruct (validateIO_order_independent validate [data; logs] [logs; data]) as [Hiff _].
    by apply (Hiff Hperm).
  - destruct (validateIO_order_independent validate [data; logs] [logs]) as [_ Hsome].
    by apply Hsome.
Defined.

(** X10: [validateIO] consults the check of persistent volume names only
    on the non-empty names of entries without a claim template: two
    checks that agree on these names give the same result, so that on a
    list whose entries all have no name the check plays no part. *)
Theorem validateIO_consults_names {PersistentVolumeClaimSpec : Type}
    (validate1 validate2 : string → bool → list string)
    (volumes : list (VolumeSpec PersistentVolumeClaimSpec)) :
  (∀ volume, volume ∈ volumes →
     VolumeClaim volume = None → VolumeClaimName volume ≠ "" →
     validate1 (VolumeClaimName volume) false = validate2 (VolumeClaimName volume) false) →
  validateIO validate1 volumes = validateIO validate2 volumes.
Proof.
  unfold validateIO. generalize (∅ : gmap string bool).
  induction volumes as [|a vs IH]; intros m Hagree; [done|].
  rewrite (validateIO_range_cons validate1), (validateIO_range_cons validate2).
  assert (validateIO_range validate1 [a] m = validateIO_range validate2 [a] m) as ->.
  { rewrite !validateIO_range_one.
    destruct (decide (MountPath a = "")); [done|].
    destruct (decide (is_Some (m !! MountPath a))); [done|].
    destruct (decide (VolumeClaim a = None ∧ VolumeClaimName a = "")); [done|].
    destruct (decide (VolumeClaimName a = "")) as [|Hn]; [done|].
    destruct (decide (is_Some (VolumeClaim a))) as [|Hc]; [done|].
    assert (VolumeClaim a = None) as Hnone.
    { destruct (VolumeClaim a); [|done]. exfalso. apply Hc. eauto. }
    by rewrite (Hagree a (list_elem_of_here _ _) Hnone Hn). }
  destruct (validateIO_range validate2 [a] m); [done|].
  apply IH. intros volume Hv. apply Hagree. by right.
Qed.

Lemma validateIO_consults_names_witness :
  let strict (name : string) (_ : bool) : list string := ["no name is valid"] in
  let lax (name : string) (_ : bool) : list string := [] in
  let logs := {| MountPath := "/logs"; VolumeClaimName := ""; VolumeClaim := Some () |} in
  let both := {| MountPath := "/b"; VolumeClaimName := "pvc"; VolumeClaim := Some () |} in
  (∀ volume, volume ∈ [logs; both] → VolumeClaim volume = None →
     VolumeClaimName volume ≠ "" →
     strict (VolumeClaimName volume) false = lax (VolumeClaimName volume) false) ∧
  validateIO strict [logs; both] = validateIO lax [logs; both].
Proof.
  intros strict lax logs both.
  assert (∀ volume, volume ∈ [logs; both] → VolumeClaim volume = None →
            VolumeClaimName volume ≠ "" →
            strict (VolumeClaimName volume) false = lax (VolumeClaimName volume) false)
    as Hagree.
  { intros volume Hv Hnone. rewrite !elem_of_cons, elem_of_nil in Hv.
    destruct Hv as [->|[->|[]]]; done. }
  split; [done|]. by apply validateIO_consults_names.
Defined.

(** ** The allow-lists and their enumerators *)

(** The flags of the two tables, for pairwise distinct constants. *)
Lemma policy_maps_table `{K : batchv1alpha1.Constants} :
  distinctConstants K →
  (∀ e, allowed policyEventMap e ↔
        e ∈ [batchv1alpha1.AnyEvent; batchv1alpha1.PodFailedEvent;
             batchv1alpha1.PodEvictedEvent; batchv1alpha1.JobUnknownEvent;
             batchv1alpha1.TaskCompletedEvent]) ∧
  (∀ e, policyEventMap !! e = Some false ↔
        e ∈ [batchv1alpha1.OutOfSyncEvent; batchv1alpha1.CommandIssuedEvent]) ∧
  (∀ a, allowed policyActionMap a ↔
        a ∈ [batchv1alpha1.AbortJobAction; batchv1alpha1.RestartJobAction;
             batchv1alpha1.RestartTaskAction; batchv1alpha1.TerminateJobAction;
             batchv1alpha1.CompleteJobAction; batchv1alpha1.ResumeJobAction]) ∧
  (∀ a, policyActionMap !! a = Some false ↔
        a ∈ [batchv1alpha1.SyncJobAction; batchv1alpha1.EnqueueAction]).
Proof.
  intros [He Ha]. unfold allowed, policyEventMap, policyActionMap.
  split_and!; intros x; rewrite <- elem_of_list_to_map by assumption;
    rewrite !elem_of_cons, !elem_of_nil;
    (split; intros H; repeat (destruct H as [H|H]); try done;
     try (injection H as ->); try subst x; auto 10; discriminate).
Qed.



Lemma getValidEvents_range_filter (order : list (string * bool)) (events : list string) :
  getValidEvents_range order events = events ++ (filter (λ kv, kv.2 = true) order).*1.
Proof.
  revert events. induction order as [|[e allow] order IH]; intros events; simpl.
  - by rewrite app_nil_r.
  - destruct allow.
    + rewrite IH, filter_cons_True by done. by rewrite <- app_assoc.
    + rewrite IH, filter_cons_False by done. done.
Qed.

Lemma getValidActions_range_events (order : list (string * bool)) (actions : list string) :
  getValidActions_range order actions = getValidEvents_range order actions.
Proof.
  revert actions. induction order as [|[a allow] order IH]; intros actions; [done|].
  simpl. by rewrite !IH.
Qed.

(** What the loop collects from a visit of a map. *)
Lemma getValidEvents_visit (m : gmap string bool) (order : list (string * bool)) :
  visits m order →
  NoDup (getValidEvents order) ∧ ∀ k, k ∈ getValidEvents order ↔ allowed m k.
Proof.
  unfold visits, getValidEvents, allowed. intros Hvisit.
  rewrite getValidEvents_range_filter. simpl. split.
  - apply (sublist_NoDup _ (order.*1)).
    + rewrite Hvisit. apply NoDup_fst_map_to_list.
    + apply fmap_sublist, sublist_filter.
  - intros k. rewrite <- elem_of_map_to_list, <- Hvisit, list_elem_of_fmap. split.
    + intros ([k' b] & -> & [Hb Hin]%list_elem_of_filter). simpl in *. by subst b.
    + intros Hin. exists (k, true). split; [done|]. by apply list_elem_of_filter.
Qed.

(** A single policy with an event specification is accepted when its
    events and its action are allowed and it does not cite the wildcard
    beside another event. *)
Lemma validatePolicies_single `{K : batchv1alpha1.Constants} (p : LifecyclePolicy) fldPath :
  hasEventSpec p → ExitCode p = None → eventsAllowed p → actionAllowed p →
  (batchv1alpha1.AnyEvent ∈ citedEvents p →
   ∀ e, e ∈ citedEvents p → e = batchv1alpha1.AnyEvent) →
  validatePolicies [p] fldPath = Ok None.
Proof.
  intros Hev Hc Hall Hact Hwild. apply validatePolicies_nil_iff. split_and!.
  - intros q ->%list_elem_of_singleton. split_and!; [|done..].
    left. split; [done|]. unfold hasExitCode. rewrite Hc. by intros [].
  - intros [|i] [|j] p1 p2 e Hij Hi Hj; simpl in *; done.
  - split.
    + intros q ->%list_elem_of_singleton. by rewrite Hc.
    + intros [|i] [|j] p1 p2 c Hij Hi Hj; simpl in *; done.
  - intros [(q1 & ->%list_elem_of_singleton & Hany)
            (e & Hne & q2 & ->%list_elem_of_singleton & He)].
    by apply Hne, Hwild.
Qed.

(** X12: whatever the order in which the two maps are visited,
    [getValidEvents] returns, without duplicates, exactly the events that
    [validatePolicies] allows in a policy, and [getValidActions] exactly
    the allowed actions, so that a policy made of any event and any
    action they return is accepted; for pairwise distinct constants the
    results are, up to order, the five events and the six actions with
    flag true. *)
Theorem enumerators_list_allowed `{K : batchv1alpha1.Constants}
    (eventOrder actionOrder : list (string * bool)) :
  visits policyEventMap eventOrder → visits policyActionMap actionOrder →
  NoDup (getValidEvents eventOrder) ∧
  (∀ e, e ∈ getValidEvents eventOrder ↔ policyEventMap !! e = Some true) ∧
  NoDup (getValidActions actionOrder) ∧
  (∀ a, a ∈ getValidActions actionOrder ↔ policyActionMap !! a = Some true) ∧
  (∀ e a fldPath,
     e ∈ getValidEvents eventOrder → a ∈ getValidActions actionOrder →
     validatePolicies [{| Action := a; Event := ""; Events := [e]; ExitCode := None |}]
       fldPath = Ok None) ∧
  (distinctConstants K →
   getValidEvents eventOrder ≡ₚ
     [batchv1alpha1.AnyEvent; batchv1alpha1.PodFailedEvent; batchv1alpha1.PodEvictedEvent;
      batchv1alpha1.JobUnknownEvent; batchv1alpha1.TaskCompletedEvent] ∧
   getValidActions actionOrder ≡ₚ
     [batchv1alpha1.AbortJobAction; batchv1alpha1.RestartJobAction;
      batchv1alpha1.RestartTaskAction; batchv1alpha1.TerminateJobAction;
      batchv1alpha1.CompleteJobAction; batchv1alpha1.ResumeJobAction]).
Proof.
  intros HvE HvA.
  destruct (getValidEvents_visit _ _ HvE) as [HndE HinE].
  assert (getValidActions actionOrder = getValidEvents actionOrder) as HeqA.
  { unfold getValidActions, getValidEvents. apply getValidActions_range_events. }
  destruct (getValidEvents_visit _ _ HvA) as [HndA HinA]. rewrite <- HeqA in HndA.
  assert (∀ a, a ∈ getValidActions actionOrder ↔ allowed policyActionMap a) as HinA'.
  { intros a. rewrite HeqA. apply HinA. }
  split_and!; [done|apply HinE|done|apply HinA'| |].
  - intros e a fldPath He Ha. apply validatePolicies_single.
    + by right.
    + done.
    + intros x Hx. unfold citedEvents in Hx. simpl in Hx.
      apply list_elem_of_singleton in Hx as ->. by apply HinE.
    + by apply HinA'.
    + unfold citedEvents. simpl.
      intros Hany%list_elem_of_singleton x Hx%list_elem_of_singleton. congruence.
  - intros Hd. destruct (policy_maps_table Hd) as (Hev & _ & Hact & _).
    destruct Hd as [HdE HdA]. split.
    + apply NoDup_Permutation; [done| |].
      * eapply sublist_NoDup; [exact HdE|]. do 5 apply sublist_skip. apply sublist_nil_l.
      * intros e. by rewrite HinE, Hev.
    + apply NoDup_Permutation; [done| |].
      * eapply sublist_NoDup; [exact HdA|]. do 6 apply sublist_skip. apply sublist_nil_l.
      * intros a. by rewrite HinA', Hact.
Qed.

Lemma enumerators_list_allowed_witness :
  let eventOrder := map_to_list (policyEventMap (K:=specConstants)) in
  let actionOrder := map_to_list (policyActionMap (K:=specConstants)) in
  (visits (policyEventMap (K:=specConstants)) eventOrder ∧
   visits (policyActionMap (K:=specConstants)) actionOrder) ∧
  NoDup (getValidEvents eventOrder) ∧
  "PodFailed" ∈ getValidEvents eventOrder ∧
  "RestartJob" ∈ getValidActions actionOrder ∧
  validatePolicies (K:=specConstants)
    [{| Action := "RestartJob"; Event := ""; Events := ["PodFailed"]; ExitCode := None |}]
    "spec.policies" = Ok None.
Proof.
  intros eventOrder actionOrder.
  assert (visits (policyEventMap (K:=specConstants)) eventOrder) as HvE
    by apply Permutation_refl.
  assert (visits (policyActionMap (K:=specConstants)) actionOrder) as HvA
    by apply Permutation_refl.
  split; [done|].
  destruct (enumerators_list_allowed (K:=specConstants) eventOrder actionOrder HvE HvA)
    as (Hnd & HinE & _ & HinA & Hok & _).
  assert ("PodFailed" ∈ getValidEvents eventOrder) as He by (apply HinE; by vm_compute).
  assert ("RestartJob" ∈ getValidActions actionOrder) as Ha by (apply HinA; by vm_compute).
  split_and!; [done..|]. by apply Hok.
Defined.
